(** * cp-bar.go: the copy progress bar of mc

    A shallow embedding of [cp-bar.go]: the caption trimming function
    [trimBarCaption], the message protocol of [barSend], the proxy reader
    [copyReader] and the command loop started by [newCpBar].

    Go's [int64], and [int] on a 64-bit platform, are modelled as [Z] with
    the two's complement wrap-around of a 64-bit word written out; Go strings
    are byte strings ([string] of 8-bit [ascii]); a run-time panic is the
    [Panic] result. *)

From Stdlib Require Import ZArith Lia Bool List Ascii String Permutation.
Import ListNotations.

Open Scope Z_scope.

(** ** Machine integers *)

Module Int64.

Definition modulus : Z := 2 ^ 64.
Definition min_int : Z := - 2 ^ 63.
Definition max_int : Z := 2 ^ 63 - 1.

Definition in_range (z : Z) : Prop := min_int <= z <= max_int.

(** The value a 64-bit signed word holds after an operation whose exact
    result is [z]. *)
Definition wrap (z : Z) : Z := (z + 2 ^ 63) mod modulus - 2 ^ 63.

Definition add (a b : Z) : Z := wrap (a + b).
Definition sub (a b : Z) : Z := wrap (a - b).

(** Sum of a list in int64 arithmetic, starting from [a]. *)
Definition sum_from (a : Z) (l : list Z) : Z := fold_left add l a.

End Int64.

(** Exact sum of a list of integers. *)
Definition zsum (l : list Z) : Z := fold_right Z.add 0 l.

(** ** Results of code that may panic *)

Inductive result (A : Type) : Type :=
| Ok (a : A)
| Panic.
Arguments Ok {A} a.
Arguments Panic {A}.

Definition bind {A B : Type} (r : result A) (k : A -> result B) : result B :=
  match r with
  | Ok a => k a
  | Panic => Panic
  end.

Notation "x <- r ;; k" := (bind r (fun x => k))
  (at level 61, r at next level, right associativity).

(** ** Go strings *)

Module GoString.

(** [len(s)]: the number of bytes. *)
Definition len (s : string) : Z := Z.of_nat (String.length s).

Fixpoint drop (n : nat) (s : string) : string :=
  match n, s with
  | O, _ => s
  | S _, EmptyString => EmptyString
  | S n', String _ s' => drop n' s'
  end.

(** [s[i:]]: panics unless [0 <= i <= len(s)]. *)
Definition slice_from (s : string) (i : Z) : result string :=
  if (i <? 0) || (len s <? i) then Panic else Ok (drop (Z.to_nat i) s).

(** [strings.IndexByte(s, b)]: index of the first byte equal to [b],
    or -1. *)
Fixpoint IndexByte (s : string) (b : ascii) : Z :=
  match s with
  | EmptyString => -1
  | String a s' =>
      if Ascii.eqb a b then 0
      else let i := IndexByte s' b in
           if i <? 0 then -1 else i + 1
  end.

(** [byte(r)] for a rune [r]: the low eight bits. *)
Definition byte_of_rune (r : Z) : ascii := ascii_of_N (Z.to_N (r mod 256)).

(** The byte at index [i], when there is one. *)
Fixpoint byte_at (i : nat) (s : string) : option ascii :=
  match s with
  | EmptyString => None
  | String a s' =>
      match i with
      | O => Some a
      | S i' => byte_at i' s'
      end
  end.

End GoString.
Import GoString.

(** ** Captions *)

Record caption : Type := mkCaption {
  message : string;
  separator : Z  (* rune *)
}.

(** [trimBarCaption], lines 97-111. *)
Definition trimBarCaption (c : caption) (width : Z) : result string :=
  if width <? len (message c) then
    let trimSize :=
      Int64.add (Int64.add (Int64.sub (len (message c)) width) 3) 1 in
    if trimSize <? len (message c) then
      tail <- slice_from (message c) trimSize ;;
      let message' := ("..." ++ tail)%string in
      let partialTrimSize := IndexByte message' (byte_of_rune (separator c)) in
      if 0 <? partialTrimSize then slice_from message' partialTrimSize
      else Ok message'
    else Ok (message c)
  else Ok (message c).

(** ** The trimming algorithm in the words of the specification *)

(** [first_occurrence b s i]: byte [b] occurs in [s] at index [i] and at no
    smaller index. *)
Definition first_occurrence (b : ascii) (s : string) (i : nat) : Prop :=
  byte_at i s = Some b /\ forall j, (j < i)%nat -> byte_at j s <> Some b.


(** Steps 2 and 3 of section 4.4, over exact integers: the ellipsis
    followed by the message from index [length - width + 4] on. *)
Definition spec_trimSize (m : string) (width : Z) : Z := len m - width + 4.

Definition candidate (m : string) (width : Z) : string :=
  ("..." ++ drop (Z.to_nat (spec_trimSize m width)) m)%string.

(** The size computation of line 100 stays within [int]. *)
Definition no_overflow (m : string) (width : Z) : Prop :=
  spec_trimSize m width <= Int64.max_int.

(** ** Messages on the command channel *)

Inductive cpBarCmd : Type :=
| cpBarCmdExtend
| cpBarCmdProgress
| cpBarCmdFinish
| cpBarCmdPutError
| cpBarCmdGetError
| cpBarCmdSetCaption.

(** A value of type [interface{}], as far as this file stores one. *)
Inductive iface : Type :=
| Nil
| Int64Val (z : Z)
| CaptionVal (c : caption).

Record barMsg : Type := mkMsg {
  Cmd : cpBarCmd;
  Arg : iface
}.

(** The type assertions [x.(int64)] and [x.(caption)]. *)
Definition assert_int64 (x : iface) : result Z :=
  match x with
  | Int64Val z => Ok z
  | _ => Panic
  end.

Definition assert_caption (x : iface) : result caption :=
  match x with
  | CaptionVal c => Ok c
  | _ => Panic
  end.

(** What a goroutine holding a [barSend] does to its two channels. *)
Inductive chanOp : Type :=
| Send (m : barMsg)      (* cmdCh <- m *)
| RecvFinish             (* <-finishCh *)
| CloseCmd.              (* close(cmdCh) *)

(** The methods of [barSend], lines 62-95.  A method call is a value of
    [call]; [msg] is the message it puts on [cmdCh] and [ops] the channel
    operations it performs, in program order.  [Finish] defers the close,
    which therefore runs last. *)
Module barSend.

Inductive call : Type :=
| Extend (total : Z)
| progress (p : Z)
| ErrorPut (size : Z)
| ErrorGet (size : Z)
| SetCaption (c : caption)
| Finish.

Definition msg (c : call) : barMsg :=
  match c with
  | Extend total => mkMsg cpBarCmdExtend (Int64Val total)
  | progress p => mkMsg cpBarCmdProgress (Int64Val p)
  | ErrorPut size => mkMsg cpBarCmdPutError (Int64Val size)
  | ErrorGet size => mkMsg cpBarCmdGetError (Int64Val size)
  | SetCaption c => mkMsg cpBarCmdSetCaption (CaptionVal c)
  | Finish => mkMsg cpBarCmdFinish Nil
  end.

Definition ops (c : call) : list chanOp :=
  match c with
  | Finish => [Send (msg Finish); RecvFinish; CloseCmd]
  | _ => [Send (msg c)]
  end.

(** A goroutine that makes the calls [cs] one after the other. *)
Definition program (cs : list call) : list chanOp := flat_map ops cs.

End barSend.

(** ** The proxy reader *)

Definition error : Type := string.

(** [io.Reader]: [Read] fills a prefix of the buffer and returns the count
    and the error; the reader itself may change. *)
Class Reader (R : Type) : Type := {
  Read : R -> list Byte.byte -> R * list Byte.byte * Z * option error
}.

(** [int64(n)] for an [int] [n]: both are 64 bits wide here. *)
Definition int64_of_int (n : Z) : Z := n.

(** What a call of [copyReader.Read] does, in order. *)
Inductive effect : Type :=
| InnerRead (p : list Byte.byte)   (* r.Reader.Read(p) *)
| OnChannel (op : chanOp).

Record copyReader (R : Type) : Type := mkCopyReader {
  inner : R
}.
Arguments mkCopyReader {R} inner.
Arguments inner {R} c.

(** [copyReader.Read], lines 46-50: the new reader, the buffer, the
    returned [(n, err)] and the effects. *)
Definition copyReader_Read {R : Type} `{Reader R}
    (r : copyReader R) (p : list Byte.byte)
  : copyReader R * list Byte.byte * (Z * option error) * list effect :=
  let '(inner', p', n, err) := Read (inner r) p in
  (mkCopyReader inner', p', (n, err),
   InnerRead p :: map OnChannel (barSend.ops (barSend.progress (int64_of_int n)))).

(** ** The renderer primitive *)

(** Modelled from the spec: the progress bar of package [pb], an external
    library whose source is not in this repository.  Section 6 of the
    specification lists what the actor consumes: set total, add delta, set
    absolute position, start, finish and the current display width.  The
    counters are int64. *)
Module pb.

Record ProgressBar : Type := mkBar {
  Total : Z;
  current : Z;
  Width : Z;
  isStarted : bool;
  isFinish : bool
}.

Definition New64 (total width : Z) : ProgressBar :=
  mkBar total 0 width false false.

Definition AddTotal (b : ProgressBar) (n : Z) : ProgressBar :=
  mkBar (Int64.add (Total b) n) (current b) (Width b) (isStarted b) (isFinish b).

Definition Add64 (b : ProgressBar) (n : Z) : ProgressBar :=
  mkBar (Total b) (Int64.add (current b) n) (Width b) (isStarted b) (isFinish b).

Definition Set64 (b : ProgressBar) (n : Z) : ProgressBar :=
  mkBar (Total b) n (Width b) (isStarted b) (isFinish b).

Definition Start (b : ProgressBar) : ProgressBar :=
  mkBar (Total b) (current b) (Width b) true (isFinish b).

Definition Finish (b : ProgressBar) : ProgressBar :=
  mkBar (Total b) (current b) (Width b) (isStarted b) true.

Definition GetWidth (b : ProgressBar) : Z := Width b.

End pb.

(** ** The command loop of [newCpBar] *)

(** The variables of the goroutine, lines 118-122, and what it has written
    to the console. *)
Record actor : Type := mkActor {
  started : bool;
  redraw : bool;
  barCaption : string;
  totalBytesRead : Z;
  bar : pb.ProgressBar;
  console : list string
}.

Definition with_bar (a : actor) (b : pb.ProgressBar) : actor :=
  mkActor (started a) (redraw a) (barCaption a) (totalBytesRead a) b (console a).

Definition with_redraw (a : actor) (r : bool) : actor :=
  mkActor (started a) r (barCaption a) (totalBytesRead a) (bar a) (console a).

Definition with_started (a : actor) (s : bool) : actor :=
  mkActor s (redraw a) (barCaption a) (totalBytesRead a) (bar a) (console a).

Definition with_barCaption (a : actor) (s : string) : actor :=
  mkActor (started a) (redraw a) s (totalBytesRead a) (bar a) (console a).

Definition with_totalBytesRead (a : actor) (n : Z) : actor :=
  mkActor (started a) (redraw a) (barCaption a) n (bar a) (console a).

Definition console_Bar (a : actor) (s : string) : actor :=
  mkActor (started a) (redraw a) (barCaption a) (totalBytesRead a) (bar a)
          (console a ++ [s]).

(** The state at line 140, for a terminal [width] columns wide. *)
Definition newCpBar (width : Z) : actor :=
  mkActor false false EmptyString 0 (pb.New64 0 width) [].

Definition nl : string := String (ascii_of_nat 10) EmptyString.
Definition cr : string := String (ascii_of_nat 13) EmptyString.
Definition cursorUp : string := String (ascii_of_nat 27) "[1A".

Fixpoint Repeat (s : string) (count : nat) : string :=
  match count with
  | O => EmptyString
  | S n => (s ++ Repeat s n)%string
  end.

(** [bar.Callback], lines 128-137. *)
Definition Callback (a : actor) (s : string) : actor :=
  let a1 := if redraw a then console_Bar a nl else a in
  let a2 := console_Bar a1 (cr ++ cursorUp ++ Repeat " " (String.length s) ++ cr)%string in
  let a3 := console_Bar a2 (barCaption a2 ++ nl ++ s)%string in
  with_redraw a3 false.

(** How one iteration of the loop ends: back at [range], or at
    [finishCh <- true] followed by [return]. *)
Inductive outcome : Type :=
| Continue (a : actor)
| Finishing (a : actor).

Definition state_of (o : outcome) : actor :=
  match o with
  | Continue a => a
  | Finishing a => a
  end.

(** The body of the loop, lines 141-172. *)
Definition handle (a : actor) (msg : barMsg) : result outcome :=
  match Cmd msg with
  | cpBarCmdSetCaption =>
      c <- assert_caption (Arg msg) ;;
      s <- trimBarCaption c (pb.GetWidth (bar a)) ;;
      Ok (Continue (with_barCaption a s))
  | cpBarCmdExtend =>
      t <- assert_int64 (Arg msg) ;;
      Ok (Continue (with_bar a (pb.AddTotal (bar a) t)))
  | cpBarCmdProgress =>
      let a1 :=
        if (0 <? pb.Total (bar a)) && negb (started a)
        then with_bar (with_redraw (with_started a true) true) (pb.Start (bar a))
        else a in
      d <- assert_int64 (Arg msg) ;;
      if 0 <? d
      then Ok (Continue (with_bar (with_totalBytesRead a1 (Int64.add (totalBytesRead a1) d))
                                  (pb.Add64 (bar a1) d)))
      else Ok (Continue a1)
  | cpBarCmdPutError =>
      let a1 := with_redraw a true in
      size <- assert_int64 (Arg msg) ;;
      if size <? totalBytesRead a1
      then Ok (Continue (with_bar a1 (pb.Set64 (bar a1) (Int64.sub (totalBytesRead a1) size))))
      else Ok (Continue a1)
  | cpBarCmdGetError =>
      let a1 := with_redraw a true in
      size <- assert_int64 (Arg msg) ;;
      if 0 <? size
      then Ok (Continue (with_bar a1 (pb.Add64 (bar a1) size)))
      else Ok (Continue a1)
  | cpBarCmdFinish =>
      let a1 := if started a then with_bar a (pb.Finish (bar a)) else a in
      Ok (Finishing a1)
  end.

(** What the goroutine reacts to: a message received from [cmdCh], or the
    renderer calling [bar.Callback] with a freshly formatted line. *)
Inductive event : Type :=
| Recv (m : barMsg)
| Tick (s : string).

Definition step (a : actor) (e : event) : result outcome :=
  match e with
  | Recv m => handle a m
  | Tick s => Ok (Continue (Callback a s))
  end.

(** The loop over a stream of events; it stops at the first [Finish]. *)
Fixpoint run (a : actor) (es : list event) : result outcome :=
  match es with
  | [] => Ok (Continue a)
  | e :: es' =>
      o <- step a e ;;
      match o with
      | Continue a' => run a' es'
      | Finishing a' => Ok (Finishing a')
      end
  end.

Definition is_finish (e : event) : bool :=
  match e with
  | Recv (mkMsg cpBarCmdFinish _) => true
  | _ => false
  end.

(** The events the loop gets to: those up to and including the first
    [Finish] message. *)
Fixpoint handled (es : list event) : list event :=
  match es with
  | [] => []
  | e :: es' => if is_finish e then [e] else e :: handled es'
  end.

(** The event of a method call reaching the loop. *)
Definition recv (c : barSend.call) : event := Recv (barSend.msg c).

(** The arguments of the [Extend] messages of a stream, in order. *)
Definition extends (es : list event) : list Z :=
  flat_map (fun e => match e with
                     | Recv (mkMsg cpBarCmdExtend (Int64Val t)) => [t]
                     | _ => []
                     end) es.

(** The positive arguments of the [progress] messages of a stream. *)
Definition progressed (es : list event) : list Z :=
  flat_map (fun e => match e with
                     | Recv (mkMsg cpBarCmdProgress (Int64Val d)) =>
                         if 0 <? d then [d] else []
                     | _ => []
                     end) es.

(** A caption the loop can trim at this width without line 100
    overflowing. *)
Definition caption_ok (width : Z) (c : caption) : Prop :=
  Int64.in_range width /\ len (message c) <= Int64.max_int
  /\ no_overflow (message c) width.

(** An event that goroutines calling the methods of [barSend], and the
    renderer, can cause. *)
Definition sent (width : Z) (e : event) : Prop :=
  match e with
  | Tick _ => True
  | Recv m =>
      exists c, m = barSend.msg c
                /\ forall cp, c = barSend.SetCaption cp -> caption_ok width cp
  end.

(** The loop switches to "started" while it handles [e] in state [a]. *)
Definition starts (a : actor) (e : event) : Prop :=
  started a = false
  /\ exists o, step a e = Ok o /\ started (state_of o) = true.

(** [e] is a progress message and the total is positive in state [a]. *)
Definition progress_with_total (a : actor) (e : event) : Prop :=
  0 < pb.Total (bar a)
  /\ exists d, e = Recv (mkMsg cpBarCmdProgress (Int64Val d)).

(** ** The goroutines together

    The loop of [newCpBar] runs in one goroutine; every other goroutine holds
    a [barSend] and performs channel operations.  Both channels are
    unbuffered: a send and its receive are one joint transition. *)

Inductive actorStatus : Type :=
| Looping (a : actor)      (* at [range cmdCh], line 140 *)
| Signalling (a : actor)   (* at [finishCh <- true], line 170 *)
| Exited (a : actor)       (* the goroutine has returned *)
| Panicked.                (* the program has crashed *)

Definition after (o : outcome) : actorStatus :=
  match o with
  | Continue a => Looping a
  | Finishing a => Signalling a
  end.

Record system : Type := mkSystem {
  act : actorStatus;
  closed : bool;                   (* cmdCh has been closed *)
  threads : list (list chanOp)     (* what each other goroutine has left to do *)
}.

Inductive label : Type :=
| Handled (m : barMsg)   (* the loop received [m] and ran its case *)
| Signalled              (* [finishCh <- true] met [<-finishCh] *)
| Closed                 (* [close(cmdCh)] *)
| LoopEnded              (* [range] saw the closed channel *)
| Rendered (s : string)  (* the renderer called [bar.Callback] *)
| Crash.

Inductive sysStep : system -> label -> system -> Prop :=
| step_send a m o pre rest post :
    handle a m = Ok o ->
    sysStep (mkSystem (Looping a) false (pre ++ (Send m :: rest) :: post))
            (Handled m)
            (mkSystem (after o) false (pre ++ rest :: post))
| step_send_panic a m pre rest post :
    handle a m = Panic ->
    sysStep (mkSystem (Looping a) false (pre ++ (Send m :: rest) :: post))
            Crash
            (mkSystem Panicked false (pre ++ rest :: post))
| step_send_closed st m pre rest post :
    st <> Panicked ->
    sysStep (mkSystem st true (pre ++ (Send m :: rest) :: post))
            Crash
            (mkSystem Panicked true (pre ++ rest :: post))
| step_signal a c pre rest post :
    sysStep (mkSystem (Signalling a) c (pre ++ (RecvFinish :: rest) :: post))
            Signalled
            (mkSystem (Exited a) c (pre ++ rest :: post))
| step_close st pre rest post :
    st <> Panicked ->
    sysStep (mkSystem st false (pre ++ (CloseCmd :: rest) :: post))
            Closed
            (mkSystem st true (pre ++ rest :: post))
| step_close_closed st pre rest post :
    st <> Panicked ->
    sysStep (mkSystem st true (pre ++ (CloseCmd :: rest) :: post))
            Crash
            (mkSystem Panicked true (pre ++ rest :: post))
| step_range_end a ts :
    sysStep (mkSystem (Looping a) true ts)
            LoopEnded
            (mkSystem (Exited a) true ts)
| step_tick a c ts s :
    pb.isStarted (bar a) = true ->
    sysStep (mkSystem (Looping a) c ts)
            (Rendered s)
            (mkSystem (Looping (Callback a s)) c ts).

(** Executions, with the labels in the order they happened. *)
Inductive exec : system -> list label -> system -> Prop :=
| exec_nil s : exec s [] s
| exec_snoc s tr s' l s'' :
    exec s tr s' -> sysStep s' l s'' -> exec s (tr ++ [l]) s''.

(** The system right after [newCpBar], with goroutines that make the given
    method calls. *)
Definition boot (a : actor) (progs : list (list barSend.call)) : system :=
  mkSystem (Looping a) false (map barSend.program progs).

Definition handled_finish (l : label) : Prop :=
  exists m, l = Handled m /\ Cmd m = cpBarCmdFinish.

Definition is_handled (l : label) : Prop := exists m, l = Handled m.

(** *** The shutdown protocol on traces *)

(** The channel is closed only after the completion signal. *)
Definition close_after_signal (tr : list label) : Prop :=
  forall pre post, tr = pre ++ Closed :: post -> In Signalled pre.

(** The completion signal comes only after the loop handled [Finish]. *)
Definition signal_after_finish (tr : list label) : Prop :=
  forall pre post, tr = pre ++ Signalled :: post -> Exists handled_finish pre.

(** The completion signal is given at most once. *)
Definition signal_once (tr : list label) : Prop :=
  forall pre post, tr = pre ++ Signalled :: post ->
  ~ In Signalled pre /\ ~ In Signalled post.

(** After [Finish] the loop handles no message. *)
Definition nothing_after_finish (tr : list label) : Prop :=
  forall pre l post, tr = pre ++ l :: post -> handled_finish l ->
  Forall (fun l' => ~ is_handled l') post.

Definition protocol (tr : list label) : Prop :=
  close_after_signal tr /\ signal_after_finish tr
  /\ signal_once tr /\ nothing_after_finish tr.

(** The loop's variables after it handled [Finish] in state [a]:
    [bar.Finish()] has run if and only if the bar was started. *)
Definition finished (a : actor) : actor :=
  if started a then with_bar a (pb.Finish (bar a)) else a.

(** Where a goroutine that only calls methods of [barSend] can be: between
    two calls, or inside [Finish] before the receive or before the deferred
    close, the latter only once the signal has been given. *)
Inductive thread_at (tr : list label) : list chanOp -> Prop :=
| at_call cs : thread_at tr (barSend.program cs)
| at_recv cs : thread_at tr (RecvFinish :: CloseCmd :: barSend.program cs)
| at_close cs :
    In Signalled tr -> thread_at tr (CloseCmd :: barSend.program cs).

Definition actor_inv (tr : list label) (st : actorStatus) : Prop :=
  match st with
  | Looping _ => ~ In Signalled tr /\ ~ Exists handled_finish tr
  | Signalling _ => ~ In Signalled tr /\ Exists handled_finish tr
  | Exited _ => True
  | Panicked => True
  end.

Record sinv (tr : list label) (s : system) : Prop := mkSinv {
  sinv_threads : Forall (thread_at tr) (threads s);
  sinv_closed : closed s = true -> In Signalled tr;
  sinv_actor : actor_inv tr (act s)
}.

(** A reader over a byte slice, in the manner of [bytes.Reader]; used to
    run [copyReader.Read] on an example. *)
Definition EOF : error := "EOF"%string.

#[export] Instance sliceReader : Reader (list Byte.byte) := {
  Read src p :=
    match src with
    | [] => (src, p, 0, Some EOF)
    | _ =>
        let n := Nat.min (List.length p) (List.length src) in
        (skipn n src, firstn n src ++ skipn n p, Z.of_nat n, None)
    end
}.

(** ** Further vocabulary for the properties below *)

(** [NewProxyReader], lines 78-80: the reader wrapped together with the
    handle. *)
Definition NewProxyReader {R : Type} (r : R) : copyReader R := mkCopyReader r.

(** [s] is [m] without its first [k] bytes, for some [k]. *)
Definition is_suffix (s m : string) : Prop :=
  exists k, (k <= String.length m)%nat /\ s = drop k m.

(** The argument of a message has the dynamic type its case of the loop
    asserts; the [Finish] case asserts none. *)
Definition well_typed (m : barMsg) : bool :=
  match Cmd m, Arg m with
  | cpBarCmdFinish, _ => true
  | cpBarCmdSetCaption, CaptionVal _ => true
  | cpBarCmdSetCaption, _ => false
  | _, Int64Val _ => true
  | _, _ => false
  end.

(** The caption of the last [SetCaption] message of a stream. *)
Definition lastCaption (es : list event) : option caption :=
  fold_left (fun acc e => match e with
                          | Recv (mkMsg cpBarCmdSetCaption (CaptionVal c)) => Some c
                          | _ => acc
                          end) es None.



(** [e] is one of the two error messages. *)
Definition is_error (e : event) : bool :=
  match e with
  | Recv (mkMsg cpBarCmdPutError _) => true
  | Recv (mkMsg cpBarCmdGetError _) => true
  | _ => false
  end.

(** The positive sizes of the [ErrorGet] messages of a stream. *)
Definition gets (es : list event) : list Z :=
  flat_map (fun e => match e with
                     | Recv (mkMsg cpBarCmdGetError (Int64Val n)) =>
                         if 0 <? n then [n] else []
                     | _ => []
                     end) es.

(** All the bytes a stream adds to the position of the bar. *)
Definition budget (es : list event) : Z :=
  zsum (progressed es) + zsum (gets es).

(** Every [ErrorPut] message of the stream has a size of at least zero. *)
Definition put_nonneg (e : event) : Prop :=
  match e with
  | Recv (mkMsg cpBarCmdPutError (Int64Val n)) => 0 <= n
  | _ => True
  end.




(** The stored caption is the trimmed message of [acc], the caption set
    last, or [cap0] when none was set; the width is [W]. *)
Definition caption_inv (cap0 : string) (W : Z) (a : actor)
    (acc : option caption) : Prop :=
  pb.Width (bar a) = W
  /\ match acc with
     | None => barCaption a = cap0
     | Some c => trimBarCaption c W = Ok (barCaption a)
     end.

(** Both counters lie between zero and [K]. *)
Definition bounded (a : actor) (K : Z) : Prop :=
  0 <= totalBytesRead a <= K /\ 0 <= pb.current (bar a) <= K.


(** * Properties *)

(** ** Int64 arithmetic *)

Module Int64Facts.
Import Int64.

Ltac unfold_consts :=
  cbv [in_range min_int max_int modulus] in *;
  change (2 ^ 63) with 9223372036854775808 in *;
  change (2 ^ 64) with 18446744073709551616 in *.

Lemma wrap_range (z : Z) : in_range (wrap z).
Proof.
  unfold wrap. unfold_consts.
  pose proof (Z.mod_pos_bound (z + 9223372036854775808) 18446744073709551616).
  lia.
Qed.

Lemma wrap_id (z : Z) : in_range z -> wrap z = z.
Proof.
  intros Hz. unfold wrap. unfold_consts.
  rewrite Z.mod_small by lia. lia.
Qed.

Lemma wrap_add_l (a b : Z) : wrap (wrap a + b) = wrap (a + b).
Proof.
  unfold wrap.
  replace ((a + 2 ^ 63) mod modulus - 2 ^ 63 + b + 2 ^ 63)
    with ((a + 2 ^ 63) mod modulus + b) by lia.
  rewrite Zplus_mod_idemp_l.
  replace (a + 2 ^ 63 + b) with (a + b + 2 ^ 63) by lia. reflexivity.
Qed.

Lemma wrap_add_r (a b : Z) : wrap (a + wrap b) = wrap (a + b).
Proof. rewrite Z.add_comm, wrap_add_l, Z.add_comm. reflexivity. Qed.

Lemma wrap_wrap (a : Z) : wrap (wrap a) = wrap a.
Proof. apply wrap_id, wrap_range. Qed.

(** Below the range the word holds the exact value plus [2^64]; above,
    minus [2^64]. *)
Lemma wrap_above (z : Z) :
  max_int < z <= max_int + modulus -> wrap z = z - modulus.
Proof.
  intros Hz. unfold wrap. unfold_consts.
  replace (z + 9223372036854775808)
    with ((z - 18446744073709551616 + 9223372036854775808)
          + 1 * 18446744073709551616) by lia.
  rewrite Z.mod_add by lia. rewrite Z.mod_small by lia. lia.
Qed.

Lemma sum_from_wrap (l : list Z) (a : Z) :
  sum_from (wrap a) l = wrap (a + zsum l).
Proof.
  revert a. induction l as [|x l IH]; intros a; cbn [sum_from fold_left zsum fold_right].
  - rewrite Z.add_0_r. reflexivity.
  - fold (sum_from (add (wrap a) x) l). unfold add.
    rewrite wrap_add_l, IH, Z.add_assoc. reflexivity.
Qed.

Lemma sum_from_in_range (l : list Z) (a : Z) :
  in_range a -> sum_from a l = wrap (a + zsum l).
Proof.
  intros Ha. rewrite <- (wrap_id a Ha) at 1. apply sum_from_wrap.
Qed.

Lemma sum_from_app (l1 l2 : list Z) (a : Z) :
  sum_from a (l1 ++ l2) = sum_from (sum_from a l1) l2.
Proof. unfold sum_from. apply fold_left_app. Qed.

(** The expression [len - width + 3 + 1] of line 100. *)
Lemma trimSize_wrap (l w : Z) :
  add (add (sub l w) 3) 1 = wrap (l - w + 4).
Proof.
  unfold add, sub. rewrite wrap_add_l, <- Z.add_assoc, wrap_add_l.
  reflexivity.
Qed.

End Int64Facts.

(** ** Byte strings *)

Module GoStringFacts.

Lemma len_nonneg (s : string) : 0 <= len s.
Proof. unfold len. lia. Qed.

Lemma len_append (s t : string) : len (s ++ t) = len s + len t.
Proof.
  unfold len. induction s as [|a s IH]; cbn [append String.length].
  - lia.
  - lia.
Qed.

Lemma length_drop (n : nat) (s : string) :
  String.length (drop n s) = (String.length s - n)%nat.
Proof.
  revert s. induction n as [|n IH]; intros s.
  - cbn. lia.
  - destruct s as [|a s]; cbn [drop String.length]; [reflexivity|].
    rewrite IH. reflexivity.
Qed.

Lemma len_drop (i : Z) (s : string) :
  0 <= i <= len s -> len (drop (Z.to_nat i) s) = len s - i.
Proof.
  intros Hi. unfold len in *. rewrite length_drop. lia.
Qed.

Lemma slice_from_ok (s : string) (i : Z) :
  0 <= i <= len s -> slice_from s i = Ok (drop (Z.to_nat i) s).
Proof.
  intros Hi. unfold slice_from.
  destruct (Z.ltb_spec i 0); [lia|].
  destruct (Z.ltb_spec (len s) i); [lia|]. reflexivity.
Qed.

Lemma slice_from_negative (s : string) (i : Z) :
  i < 0 -> slice_from s i = Panic.
Proof.
  intros Hi. unfold slice_from.
  destruct (Z.ltb_spec i 0); [reflexivity|lia].
Qed.

Lemma IndexByte_range (s : string) (b : ascii) :
  -1 <= IndexByte s b < len s \/ (IndexByte s b = -1 /\ s = EmptyString).
Proof.
  induction s as [|a s IH]; cbn [IndexByte].
  - right. split; reflexivity.
  - left. unfold len in *. cbn [String.length].
    destruct (Ascii.eqb a b); [lia|].
    destruct (Z.ltb_spec (IndexByte s b) 0); lia.
Qed.

Lemma IndexByte_bounds (s : string) (b : ascii) :
  -1 <= IndexByte s b <= len s.
Proof.
  destruct (IndexByte_range s b) as [H|[H ->]]; [lia|].
  rewrite H. unfold len. cbn. lia.
Qed.

Lemma IndexByte_found (s : string) (b : ascii) :
  0 <= IndexByte s b ->
  first_occurrence b s (Z.to_nat (IndexByte s b)).
Proof.
  induction s as [|a s IH]; cbn [IndexByte]; intros H.
  - lia.
  - destruct (Ascii.eqb_spec a b) as [->|Hab].
    + split; [reflexivity|]. intros j Hj. cbn in Hj. lia.
    + destruct (Z.ltb_spec (IndexByte s b) 0) as [Hlt|Hge]; [lia|].
      destruct (IH Hge) as [Hat Hbefore].
      replace (Z.to_nat (IndexByte s b + 1)) with (S (Z.to_nat (IndexByte s b))) by lia.
      split; [exact Hat|].
      intros [|j] Hj; cbn [byte_at].
      * congruence.
      * apply Hbefore. lia.
Qed.





End GoStringFacts.

(** ** Caption trimming *)

Section Trimming.

Import GoStringFacts.

Variables (m : string) (sep width : Z).
Hypothesis width_int : Int64.in_range width.
Hypothesis len_int : len m <= Int64.max_int.

Let c : caption := mkCaption m sep.

Lemma trim_fit : len m <= width -> trimBarCaption c width = Ok m.
Proof.
  intros H. unfold trimBarCaption. cbn [message c].
  destruct (Z.ltb_spec width (len m)); [lia|reflexivity].
Qed.

Lemma trimSize_exact :
  no_overflow m width ->
  Int64.add (Int64.add (Int64.sub (len m) width) 3) 1 = spec_trimSize m width.
Proof.
  intros H. rewrite Int64Facts.trimSize_wrap. apply Int64Facts.wrap_id.
  pose proof (len_nonneg m). unfold no_overflow, spec_trimSize in *.
  Int64Facts.unfold_consts. lia.
Qed.

Lemma trim_narrow :
  width < len m -> width <= 4 -> no_overflow m width ->
  trimBarCaption c width = Ok m.
Proof.
  intros Hlt Hw Hno. unfold trimBarCaption. cbn [message c].
  destruct (Z.ltb_spec width (len m)); [|lia].
  rewrite (trimSize_exact Hno). unfold spec_trimSize.
  destruct (Z.ltb_spec (len m - width + 4) (len m)); [lia|reflexivity].
Qed.

Lemma wide_no_overflow : width < len m -> 5 <= width -> no_overflow m width.
Proof. unfold no_overflow, spec_trimSize. lia. Qed.

Lemma len_candidate :
  width < len m -> 5 <= width -> len (candidate m width) = width - 1.
Proof.
  intros Hlt Hw. unfold candidate. rewrite len_append.
  rewrite len_drop by (unfold spec_trimSize; lia).
  unfold spec_trimSize. change (len "...") with 3. lia.
Qed.

Lemma trim_wide :
  width < len m -> 5 <= width ->
  trimBarCaption c width =
  Ok (let i := IndexByte (candidate m width) (byte_of_rune sep) in
      if 0 <? i then drop (Z.to_nat i) (candidate m width)
      else candidate m width).
Proof.
  intros Hlt Hw. unfold trimBarCaption. cbn [message separator c].
  destruct (Z.ltb_spec width (len m)); [|lia].
  rewrite (trimSize_exact (wide_no_overflow Hlt Hw)).
  destruct (Z.ltb_spec (spec_trimSize m width) (len m)) as [_|Hge];
    [|unfold spec_trimSize in Hge; lia].
  rewrite slice_from_ok by (unfold spec_trimSize; lia).
  cbn [bind]. fold (candidate m width). cbv zeta.
  destruct (Z.ltb_spec 0 (IndexByte (candidate m width) (byte_of_rune sep)));
    [|reflexivity].
  apply slice_from_ok.
  pose proof (IndexByte_bounds (candidate m width) (byte_of_rune sep)). lia.
Qed.

Lemma trim_wide_length :
  width < len m -> 5 <= width ->
  exists r, trimBarCaption c width = Ok r /\ len r <= width - 1.
Proof.
  intros Hlt Hw. rewrite (trim_wide Hlt Hw). eexists. split; [reflexivity|].
  cbv zeta. pose proof (len_candidate Hlt Hw) as Hc.
  pose proof (IndexByte_bounds (candidate m width) (byte_of_rune sep)) as Hb.
  destruct (Z.ltb_spec 0 (IndexByte (candidate m width) (byte_of_rune sep)));
    [|lia].
  rewrite len_drop by lia. lia.
Qed.

(** Outside the overflow of line 100 the function returns. *)
Lemma trim_returns :
  no_overflow m width -> exists r, trimBarCaption c width = Ok r /\ len r <= len m.
Proof.
  intros Hno.
  destruct (Z.le_gt_cases (len m) width) as [Hfit|Hlong].
  - exists m. split; [apply trim_fit; exact Hfit|lia].
  - destruct (Z.le_gt_cases width 4) as [Hn|Hwd].
    + exists m. split; [apply trim_narrow; assumption || lia|lia].
    + destruct (trim_wide_length) as [r [Hr Hl]]; [lia|lia|].
      exists r. split; [exact Hr|lia].
Qed.

End Trimming.

(** A few runs of the model. *)

Example trim_fits :
  trimBarCaption (mkCaption "/a/bb" 47) 10 = Ok "/a/bb"%string.
Proof. reflexivity. Qed.

Example trim_path :
  trimBarCaption (mkCaption "/a/bb/ccc/dddd" 47) 10 = Ok "/dddd"%string.
Proof. vm_compute. reflexivity. Qed.

Example trim_no_separator :
  trimBarCaption (mkCaption "abcdefghijklmnop" 47) 10 = Ok "...klmnop"%string.
Proof. vm_compute. reflexivity. Qed.

Example trim_separator_first :
  trimBarCaption (mkCaption "abcdefghijklmnop" 46) 10 = Ok "...klmnop"%string.
Proof. vm_compute. reflexivity. Qed.

Example trim_width_zero :
  trimBarCaption (mkCaption "abc" 47) 0 = Ok "abc"%string.
Proof. vm_compute. reflexivity. Qed.

Example trim_width_negative :
  trimBarCaption (mkCaption "abc" 47) (-7) = Ok "abc"%string.
Proof. vm_compute. reflexivity. Qed.

(** For a width of at most zero the message comes back as it is, as long
    as line 100 does not overflow. *)
Lemma trim_nonpositive_width (m : string) (sep width : Z) :
  Int64.in_range width -> width <= 0 -> no_overflow m width ->
  trimBarCaption (mkCaption m sep) width = Ok m.
Proof.
  intros Hr Hw Hno.
  destruct (Z.le_gt_cases (len m) width) as [Hfit|Hlong].
  - apply trim_fit. exact Hfit.
  - apply trim_narrow; assumption || lia.
Qed.

(** C1, as stated, fails: a six byte message and a width of three come back
    six bytes long. *)
Lemma trimBarCaption_length_counterexample :
  trimBarCaption (mkCaption "abcdef" 47) 3 = Ok "abcdef"%string
  /\ ~ len "abcdef" <= 3.
Proof.
  split.
  - vm_compute. reflexivity.
  - unfold len. cbn. lia.
Qed.

(** C1 (amended): a message that fits ([len <= width]) is returned
    unchanged; for a width of at least five the result is at most [width]
    bytes long; for a width of at most four a longer message is returned
    unchanged; and wherever the size computation does not overflow the
    function returns a result that trimming at the same width leaves
    unchanged (idempotence). *)
Theorem trimBarCaption_fitting (m : string) (sep width : Z) :
  Int64.in_range width -> len m <= Int64.max_int ->
  (len m <= width -> trimBarCaption (mkCaption m sep) width = Ok m)
  /\ (5 <= width ->
      exists r, trimBarCaption (mkCaption m sep) width = Ok r /\ len r <= width)
  /\ (width <= 4 -> width < len m -> no_overflow m width ->
      trimBarCaption (mkCaption m sep) width = Ok m)
  /\ (no_overflow m width ->
      exists r, trimBarCaption (mkCaption m sep) width = Ok r
                /\ trimBarCaption (mkCaption r sep) width = Ok r).
Proof.
  intros Hr Hlen. repeat split.
  - apply trim_fit.
  - intros Hw. destruct (Z.le_gt_cases (len m) width) as [Hfit|Hlong].
    + exists m. split; [apply trim_fit; exact Hfit|exact Hfit].
    + destruct (trim_wide_length m sep width Hr Hlen Hlong Hw) as [r [Hok Hl]].
      exists r. split; [exact Hok|lia].
  - intros Hw Hlong Hno. apply trim_narrow; assumption.
  - intros Hno. destruct (Z.le_gt_cases (len m) width) as [Hfit|Hlong].
    + exists m. split; apply trim_fit; exact Hfit.
    + destruct (Z.le_gt_cases width 4) as [Hn|Hwd].
      * exists m. split; apply trim_narrow; assumption.
      * destruct (trim_wide_length m sep width Hr Hlen Hlong) as [r [Hok Hl]]; [lia|].
        exists r. split; [exact Hok|]. apply trim_fit. lia.
Qed.

Lemma trimBarCaption_fitting_witness :
  exists r, trimBarCaption (mkCaption "/a/bb/ccc/dddd" 47) 10 = Ok r
            /\ len r <= 10.
Proof.
  assert (Hr : Int64.in_range 10) by (Int64Facts.unfold_consts; lia).
  assert (Hl : len "/a/bb/ccc/dddd" <= Int64.max_int)
    by (unfold len; cbn; Int64Facts.unfold_consts; lia).
  destruct (trimBarCaption_fitting "/a/bb/ccc/dddd" 47 10 Hr Hl) as [_ [H _]].
  apply H. lia.
Defined.



(** C9 fails at the smallest [int]: line 100 wraps around to a negative
    [trimSize], the guard of line 101 lets it through and the slice
    expression of line 102 panics. *)
Theorem trimBarCaption_panics_at_min_int :
  Int64.add (Int64.add (Int64.sub (len "abc") Int64.min_int) 3) 1
  = -9223372036854775801
  /\ trimBarCaption (mkCaption "abc" 47) Int64.min_int = Panic.
Proof. split; vm_compute; reflexivity. Qed.

(** The slice index is within the message whenever line 100 does not
    overflow; the panic above needs a width below [len + 5 - 2^63]. *)
Lemma trimBarCaption_no_panic (m : string) (sep width : Z) :
  Int64.in_range width -> len m <= Int64.max_int -> no_overflow m width ->
  exists r, trimBarCaption (mkCaption m sep) width = Ok r.
Proof.
  intros Hr Hl Hno.
  destruct (trim_returns m sep width Hr Hl Hno) as [r [H _]].
  exists r. exact H.
Qed.

(** Conversely, for a message shorter than [2^63 - 4] bytes an overflow of
    line 100 always ends in the panic of line 102. *)
Lemma trimBarCaption_overflow_panics (m : string) (sep width : Z) :
  Int64.in_range width -> len m + 4 <= Int64.max_int ->
  ~ no_overflow m width ->
  trimBarCaption (mkCaption m sep) width = Panic.
Proof.
  intros Hr Hl Hover. unfold no_overflow, spec_trimSize in Hover.
  pose proof (GoStringFacts.len_nonneg m) as Hlen.
  assert (Hts : Int64.add (Int64.add (Int64.sub (len m) width) 3) 1
                = len m - width + 4 - Int64.modulus).
  { rewrite Int64Facts.trimSize_wrap. apply Int64Facts.wrap_above.
    revert Hr Hl Hover. Int64Facts.unfold_consts. lia. }
  unfold trimBarCaption. cbn [message separator]. rewrite Hts.
  destruct (Z.ltb_spec width (len m)) as [_|Hge];
    [|revert Hr Hl Hover Hge; Int64Facts.unfold_consts; lia].
  destruct (Z.ltb_spec (len m - width + 4 - Int64.modulus) (len m)) as [_|Hge];
    [|revert Hr Hl Hover Hge; Int64Facts.unfold_consts; lia].
  rewrite GoStringFacts.slice_from_negative; [reflexivity|].
  revert Hr Hl Hover. Int64Facts.unfold_consts. lia.
Qed.

(** ** One iteration of the loop *)

Section Handle.

Variable a : actor.

Lemma handle_Extend (t : Z) :
  handle a (barSend.msg (barSend.Extend t))
  = Ok (Continue (with_bar a (pb.AddTotal (bar a) t))).
Proof. reflexivity. Qed.

Lemma handle_progress (d : Z) :
  handle a (barSend.msg (barSend.progress d))
  = let a1 := if (0 <? pb.Total (bar a)) && negb (started a)
              then with_bar (with_redraw (with_started a true) true)
                            (pb.Start (bar a))
              else a in
    Ok (Continue (if 0 <? d
                  then with_bar (with_totalBytesRead a1
                                   (Int64.add (totalBytesRead a1) d))
                                (pb.Add64 (bar a1) d)
                  else a1)).
Proof.
  unfold handle. cbn [barSend.msg Cmd Arg assert_int64 bind]. cbv zeta.
  destruct (0 <? d); reflexivity.
Qed.

Lemma handle_ErrorPut (size : Z) :
  handle a (barSend.msg (barSend.ErrorPut size))
  = Ok (Continue (if size <? totalBytesRead a
                  then with_bar (with_redraw a true)
                         (pb.Set64 (bar a) (Int64.sub (totalBytesRead a) size))
                  else with_redraw a true)).
Proof.
  unfold handle. cbn [barSend.msg Cmd Arg assert_int64 bind]. cbv zeta.
  cbn [with_redraw totalBytesRead bar]. destruct (size <? totalBytesRead a); reflexivity.
Qed.

Lemma handle_ErrorGet (size : Z) :
  handle a (barSend.msg (barSend.ErrorGet size))
  = Ok (Continue (if 0 <? size
                  then with_bar (with_redraw a true) (pb.Add64 (bar a) size)
                  else with_redraw a true)).
Proof.
  unfold handle. cbn [barSend.msg Cmd Arg assert_int64 bind]. cbv zeta.
  cbn [with_redraw bar]. destruct (0 <? size); reflexivity.
Qed.

Lemma handle_SetCaption (c : caption) :
  handle a (barSend.msg (barSend.SetCaption c))
  = (s <- trimBarCaption c (pb.Width (bar a)) ;;
     Ok (Continue (with_barCaption a s))).
Proof. reflexivity. Qed.

Lemma handle_Finish :
  handle a (barSend.msg barSend.Finish)
  = Ok (Finishing (if started a then with_bar a (pb.Finish (bar a)) else a)).
Proof. reflexivity. Qed.

(** A message built by a method never fails its type assertion; only
    trimming can panic. *)
Lemma handle_sent (c : barSend.call) :
  (forall cp, c = barSend.SetCaption cp -> caption_ok (pb.Width (bar a)) cp) ->
  exists o, handle a (barSend.msg c) = Ok o.
Proof.
  intros Hcap. destruct c as [t|d|size|size|cp|].
  - rewrite handle_Extend. eexists. reflexivity.
  - rewrite handle_progress. eexists. reflexivity.
  - rewrite handle_ErrorPut. eexists. reflexivity.
  - rewrite handle_ErrorGet. eexists. reflexivity.
  - rewrite handle_SetCaption.
    destruct (Hcap cp eq_refl) as [Hw [Hl Hno]].
    destruct cp as [m sep].
    destruct (trimBarCaption_no_panic m sep _ Hw Hl Hno) as [r Hr].
    cbn [message] in *. rewrite Hr. eexists. reflexivity.
  - rewrite handle_Finish. eexists. reflexivity.
Qed.

End Handle.

(** What an iteration does to each variable, by the command handled. *)
Ltac handle_cases Hstep :=
  match type of Hstep with
  | handle ?a ?m = Ok ?o =>
      let cmd := fresh "cmd" in
      let arg := fresh "arg" in
      destruct m as [cmd arg]; unfold handle in Hstep;
      cbn [Cmd Arg] in Hstep;
      destruct cmd; destruct arg; cbn [assert_int64 assert_caption bind] in Hstep;
      try discriminate Hstep
  end.

Ltac crunch Hstep :=
  revert Hstep; cbv zeta;
  repeat match goal with
    | |- context [bind ?r _] => destruct r; cbn [bind]
    | |- context [if ?b then _ else _] => destruct b eqn:?
    end;
  intros Hstep; try discriminate Hstep; inversion Hstep; subst; clear Hstep.

Lemma handle_Width (a : actor) (m : barMsg) (o : outcome) :
  handle a m = Ok o -> pb.Width (bar (state_of o)) = pb.Width (bar a).
Proof.
  intros H. handle_cases H; crunch H; reflexivity.
Qed.

Lemma handle_Total (a : actor) (m : barMsg) (o : outcome) :
  handle a m = Ok o ->
  pb.Total (bar (state_of o))
  = match m with
    | mkMsg cpBarCmdExtend (Int64Val t) => Int64.add (pb.Total (bar a)) t
    | _ => pb.Total (bar a)
    end.
Proof.
  intros H. handle_cases H; crunch H; reflexivity.
Qed.

Lemma handle_totalBytesRead (a : actor) (m : barMsg) (o : outcome) :
  handle a m = Ok o ->
  totalBytesRead (state_of o)
  = match m with
    | mkMsg cpBarCmdProgress (Int64Val d) =>
        if 0 <? d then Int64.add (totalBytesRead a) d else totalBytesRead a
    | _ => totalBytesRead a
    end.
Proof.
  intros H. handle_cases H; crunch H; reflexivity.
Qed.

Lemma handle_started (a : actor) (m : barMsg) (o : outcome) :
  handle a m = Ok o ->
  started (state_of o)
  = match m with
    | mkMsg cpBarCmdProgress _ => started a || (0 <? pb.Total (bar a))
    | _ => started a
    end.
Proof.
  intros H. handle_cases H.
  2: { revert H. cbv zeta.
       destruct (0 <? pb.Total (bar a)); destruct (started a) eqn:Hs;
         destruct (0 <? z); intros H; inversion H; cbn; rewrite ?Hs;
         reflexivity. }
  all: crunch H; cbn; congruence.
Qed.

Lemma handle_outcome (a : actor) (m : barMsg) (o : outcome) :
  handle a m = Ok o ->
  (is_finish (Recv m) = true /\ exists a', o = Finishing a')
  \/ (is_finish (Recv m) = false /\ exists a', o = Continue a').
Proof.
  intros H. handle_cases H; crunch H; cbn [is_finish];
    solve [left; split; [reflexivity|eexists; reflexivity]
          |right; split; [reflexivity|eexists; reflexivity]].
Qed.

(** ** The loop over a stream of events *)

Section Run.

Lemma step_outcome (a : actor) (e : event) (o : outcome) :
  step a e = Ok o ->
  (is_finish e = true /\ exists a', o = Finishing a')
  \/ (is_finish e = false /\ exists a', o = Continue a').
Proof.
  destruct e as [m|s]; cbn [step].
  - apply handle_outcome.
  - intros H. inversion H. right. split; [reflexivity|eexists; reflexivity].
Qed.

Lemma step_Width (a : actor) (e : event) (o : outcome) :
  step a e = Ok o -> pb.Width (bar (state_of o)) = pb.Width (bar a).
Proof.
  destruct e as [m|s]; cbn [step].
  - apply handle_Width.
  - intros H. inversion H. unfold Callback. destruct (redraw a); reflexivity.
Qed.

Lemma step_Total (a : actor) (e : event) (o : outcome) :
  step a e = Ok o ->
  pb.Total (bar (state_of o)) = Int64.sum_from (pb.Total (bar a)) (extends [e]).
Proof.
  destruct e as [m|s]; cbn [step].
  - intros H. rewrite (handle_Total _ _ _ H).
    destruct m as [[] []]; reflexivity.
  - intros H. inversion H. unfold Callback. destruct (redraw a); reflexivity.
Qed.

Lemma step_totalBytesRead (a : actor) (e : event) (o : outcome) :
  step a e = Ok o ->
  totalBytesRead (state_of o)
  = Int64.sum_from (totalBytesRead a) (progressed [e]).
Proof.
  destruct e as [m|s]; cbn [step].
  - intros H. rewrite (handle_totalBytesRead _ _ _ H).
    destruct m as [[] []]; try reflexivity.
    cbn [progressed flat_map]. destruct (0 <? z); reflexivity.
  - intros H. inversion H. unfold Callback. destruct (redraw a); reflexivity.
Qed.

Lemma step_started (a : actor) (e : event) (o : outcome) :
  step a e = Ok o ->
  started (state_of o)
  = match e with
    | Recv (mkMsg cpBarCmdProgress _) => started a || (0 <? pb.Total (bar a))
    | _ => started a
    end.
Proof.
  destruct e as [m|s]; cbn [step].
  - apply handle_started.
  - intros H. inversion H. unfold Callback. destruct (redraw a); reflexivity.
Qed.

Lemma step_sent (a : actor) (e : event) :
  sent (pb.Width (bar a)) e -> exists o, step a e = Ok o.
Proof.
  destruct e as [m|s]; cbn [sent step].
  - intros [c [-> Hc]]. apply handle_sent. exact Hc.
  - intros _. eexists. reflexivity.
Qed.

(** The loop runs through every stream of sent events without a
    panic. *)
Lemma run_sent (es : list event) :
  forall a, Forall (sent (pb.Width (bar a))) es -> exists o, run a es = Ok o.
Proof.
  induction es as [|e es IH]; intros a Hall; cbn [run].
  - eexists. reflexivity.
  - inversion Hall as [|? ? He Hes]; subst.
    destruct (step_sent a e He) as [o Ho]. rewrite Ho. cbn [bind].
    destruct o as [a'|a'].
    + apply IH. pose proof (step_Width _ _ _ Ho) as Hw. cbn [state_of] in Hw.
      rewrite Hw. exact Hes.
    + eexists. reflexivity.
Qed.

(** A quantity that every step moves by a fold over the event moves over
    a run by the fold over the events handled. *)
Lemma run_fold {X : Type} (get : actor -> X) (upd : X -> event -> X) :
  (forall a e o, step a e = Ok o -> get (state_of o) = upd (get a) e) ->
  forall es a o, run a es = Ok o ->
  get (state_of o) = fold_left upd (handled es) (get a).
Proof.
  intros Hstep es. induction es as [|e es IH]; intros a o Hrun;
    cbn [run handled] in *.
  - inversion Hrun. reflexivity.
  - destruct (step a e) as [o1|] eqn:Ho1; cbn [bind] in Hrun; [|discriminate].
    pose proof (Hstep _ _ _ Ho1) as Hget.
    destruct (step_outcome _ _ _ Ho1) as [[Hf [a' ->]]|[Hf [a' ->]]];
      rewrite Hf; cbn [fold_left state_of] in *.
    + inversion Hrun. subst. exact Hget.
    + rewrite <- Hget. apply IH. exact Hrun.
Qed.

Lemma fold_sum_from (pick : event -> list Z) (es : list event) (x : Z) :
  fold_left (fun acc e => Int64.sum_from acc (flat_map pick [e])) es x
  = Int64.sum_from x (flat_map pick es).
Proof.
  revert x. induction es as [|e es IH]; intros x; cbn [fold_left].
  - reflexivity.
  - rewrite IH. cbn [flat_map]. rewrite app_nil_r.
    rewrite Int64Facts.sum_from_app. reflexivity.
Qed.

Lemma run_Total (es : list event) (a : actor) (o : outcome) :
  run a es = Ok o ->
  pb.Total (bar (state_of o))
  = Int64.sum_from (pb.Total (bar a)) (extends (handled es)).
Proof.
  intros Hrun.
  rewrite (run_fold (fun a => pb.Total (bar a))
             (fun acc e => Int64.sum_from acc (extends [e]))
             step_Total es a o Hrun).
  exact (fold_sum_from _ (handled es) _).
Qed.

Lemma run_totalBytesRead (es : list event) (a : actor) (o : outcome) :
  run a es = Ok o ->
  totalBytesRead (state_of o)
  = Int64.sum_from (totalBytesRead a) (progressed (handled es)).
Proof.
  intros Hrun.
  rewrite (run_fold totalBytesRead
             (fun acc e => Int64.sum_from acc (progressed [e]))
             step_totalBytesRead es a o Hrun).
  exact (fold_sum_from _ (handled es) _).
Qed.

Lemma handled_all (es : list event) :
  forallb (fun e => negb (is_finish e)) es = true -> handled es = es.
Proof.
  induction es as [|e es IH]; cbn [forallb handled]; [reflexivity|].
  intros H. apply andb_prop in H. destruct H as [He Hes].
  destruct (is_finish e); [discriminate|]. rewrite (IH Hes). reflexivity.
Qed.

End Run.

(** ** The total *)

Ltac sent_events :=
  repeat (apply Forall_cons;
          [cbn [sent recv];
           first [exact I
                 |eexists; split; [reflexivity|]; intros ? Heq; discriminate Heq]
          |]);
  apply Forall_nil.

(** C5: over a stream of sent events, in any interleaving, the loop ends
    with the total it began with plus the arguments of the [Extend] messages
    it handled, in int64 arithmetic and, when that sum fits in an int64,
    exactly; an [Extend] adds its argument and no other message and no
    rendering changes the total. *)
Theorem Extend_total (a : actor) (es : list event) :
  Forall (sent (pb.Width (bar a))) es ->
  exists o,
    run a es = Ok o
    /\ pb.Total (bar (state_of o))
       = Int64.sum_from (pb.Total (bar a)) (extends (handled es))
    /\ (Int64.in_range (pb.Total (bar a)) ->
        Int64.in_range (pb.Total (bar a) + zsum (extends (handled es))) ->
        pb.Total (bar (state_of o))
        = pb.Total (bar a) + zsum (extends (handled es)))
    /\ (forall a1 c o1, handle a1 (barSend.msg c) = Ok o1 ->
        pb.Total (bar (state_of o1))
        = match c with
          | barSend.Extend t => Int64.add (pb.Total (bar a1)) t
          | _ => pb.Total (bar a1)
          end)
    /\ (forall a1 s, pb.Total (bar (Callback a1 s)) = pb.Total (bar a1)).
Proof.
  intros Hsent. destruct (run_sent es a Hsent) as [o Hrun].
  exists o. split; [exact Hrun|]. split; [apply run_Total; exact Hrun|].
  split; [|split].
  - intros Ha Hsum. rewrite (run_Total es a o Hrun).
    rewrite Int64Facts.sum_from_in_range by exact Ha.
    apply Int64Facts.wrap_id. exact Hsum.
  - intros a1 c o1 H. rewrite (handle_Total _ _ _ H). destruct c; reflexivity.
  - intros a1 s. unfold Callback. destruct (redraw a1); reflexivity.
Qed.

Lemma Extend_total_witness :
  exists o,
    run (newCpBar 80)
        [recv (barSend.Extend 5); recv (barSend.progress 2); Tick "[=> ]";
         recv (barSend.ErrorPut 1); recv (barSend.Extend 7)] = Ok o
    /\ pb.Total (bar (state_of o)) = 12.
Proof.
  destruct (Extend_total (newCpBar 80)
              [recv (barSend.Extend 5); recv (barSend.progress 2); Tick "[=> ]";
               recv (barSend.ErrorPut 1); recv (barSend.Extend 7)])
    as [o [Hrun [Hsum _]]].
  - sent_events.
  - exists o. split; [exact Hrun|]. rewrite Hsum. vm_compute. reflexivity.
Defined.

(** ** The count of bytes read and the error corrections *)

(** C10: a step changes [totalBytesRead] only when it handles a progress
    message with a positive argument, which it adds; [ErrorPut] and
    [ErrorGet] leave it as it is, and [ErrorPut] sets the position of the bar
    from it, whatever the position was; from [newCpBar] it is the int64 sum
    of the positive progress arguments handled. *)
Theorem totalBytesRead_frame :
  (forall a e o, step a e = Ok o ->
     totalBytesRead (state_of o) <> totalBytesRead a ->
     exists d, e = Recv (mkMsg cpBarCmdProgress (Int64Val d)) /\ 0 < d
               /\ totalBytesRead (state_of o) = Int64.add (totalBytesRead a) d)
  /\ (forall a size, exists a',
        handle a (barSend.msg (barSend.ErrorPut size)) = Ok (Continue a')
        /\ totalBytesRead a' = totalBytesRead a
        /\ pb.current (bar a')
           = if size <? totalBytesRead a
             then Int64.sub (totalBytesRead a) size
             else pb.current (bar a))
  /\ (forall a size, exists a',
        handle a (barSend.msg (barSend.ErrorGet size)) = Ok (Continue a')
        /\ totalBytesRead a' = totalBytesRead a)
  /\ (forall width es, Forall (sent width) es ->
      exists o, run (newCpBar width) es = Ok o
                /\ totalBytesRead (state_of o)
                   = Int64.sum_from 0 (progressed (handled es))).
Proof.
  split; [|split; [|split]].
  - intros a e o Hstep Hneq.
    rewrite (step_totalBytesRead _ _ _ Hstep) in *.
    destruct e as [[cmd arg]|s]; [|exfalso; apply Hneq; reflexivity].
    destruct cmd; destruct arg; try (exfalso; apply Hneq; reflexivity).
    cbn [progressed flat_map] in *.
    destruct (Z.ltb_spec 0 z); [|exfalso; apply Hneq; reflexivity].
    exists z. split; [reflexivity|]. split; [lia|reflexivity].
  - intros a size. rewrite handle_ErrorPut. eexists. split; [reflexivity|].
    destruct (size <? totalBytesRead a); split; reflexivity.
  - intros a size. rewrite handle_ErrorGet. eexists. split; [reflexivity|].
    destruct (0 <? size); reflexivity.
  - intros width es Hsent.
    destruct (run_sent es (newCpBar width) Hsent) as [o Hrun].
    exists o. split; [exact Hrun|].
    apply (run_totalBytesRead es (newCpBar width) o Hrun).
Qed.

Lemma totalBytesRead_frame_witness :
  exists o,
    run (newCpBar 80)
        [recv (barSend.progress 10); recv (barSend.ErrorGet 5);
         recv (barSend.ErrorPut 3); recv (barSend.progress 0)] = Ok o
    /\ totalBytesRead (state_of o) = 10.
Proof.
  destruct totalBytesRead_frame as [_ [_ [_ H]]].
  destruct (H 80 [recv (barSend.progress 10); recv (barSend.ErrorGet 5);
                  recv (barSend.ErrorPut 3); recv (barSend.progress 0)])
    as [o [Hrun Htbr]].
  - sent_events.
  - exists o. split; [exact Hrun|]. rewrite Htbr. vm_compute. reflexivity.
Defined.

(** C6: [ErrorGet] with a positive size moves the position of the bar up by
    the size (in int64 arithmetic, and exactly when the sum fits), with any
    other size it leaves the position; either way it sets [redraw], so that
    the next rendering first prints a newline, then clears the line and
    prints caption and bar, and resets the flag. *)
Theorem ErrorGet_position (a : actor) (size : Z) :
  exists a',
    handle a (barSend.msg (barSend.ErrorGet size)) = Ok (Continue a')
    /\ redraw a' = true
    /\ (0 < size -> pb.current (bar a') = Int64.add (pb.current (bar a)) size)
    /\ (0 < size -> Int64.in_range (pb.current (bar a) + size) ->
        pb.current (bar a') = pb.current (bar a) + size)
    /\ (size <= 0 -> pb.current (bar a') = pb.current (bar a))
    /\ (forall s,
        console (Callback a' s)
        = console a
          ++ [nl;
              (cr ++ cursorUp ++ Repeat " " (String.length s) ++ cr)%string;
              (barCaption a ++ nl ++ s)%string]
        /\ redraw (Callback a' s) = false).
Proof.
  rewrite handle_ErrorGet. eexists. split; [reflexivity|].
  destruct (Z.ltb_spec 0 size) as [Hpos|Hneg].
  - split; [reflexivity|]. split; [reflexivity|]. split; [|split].
    + intros _ Hr. cbn. apply Int64Facts.wrap_id. exact Hr.
    + lia.
    + intros s. unfold Callback. cbn. rewrite <- !app_assoc. split; reflexivity.
  - split; [reflexivity|]. split; [lia|]. split; [lia|]. split; [reflexivity|].
    intros s. unfold Callback. cbn. rewrite <- !app_assoc. split; reflexivity.
Qed.

Lemma ErrorGet_position_witness :
  exists a',
    handle (newCpBar 80) (barSend.msg (barSend.ErrorGet 4)) = Ok (Continue a')
    /\ pb.current (bar a') = 4.
Proof.
  destruct (ErrorGet_position (newCpBar 80) 4) as [a' [H [_ [_ [Hc _]]]]].
  exists a'. split; [exact H|].
  apply Hc; [lia|]. cbn. Int64Facts.unfold_consts. lia.
Defined.

(** C2, as stated, fails: after ten bytes of progress and one [ErrorPut] of
    three the position is seven, which is greater than three, and a second
    [ErrorPut] of three leaves it at seven. *)
Lemma ErrorPut_counterexample :
  exists a a',
    run (newCpBar 80) [recv (barSend.progress 10); recv (barSend.ErrorPut 3)]
    = Ok (Continue a)
    /\ pb.current (bar a) = 7
    /\ 3 < pb.current (bar a)
    /\ handle a (barSend.msg (barSend.ErrorPut 3)) = Ok (Continue a')
    /\ pb.current (bar a') = 7
    /\ pb.current (bar a') <> pb.current (bar a) - 3.
Proof.
  eexists. eexists. split; [vm_compute; reflexivity|].
  split; [reflexivity|]. split; [cbn; lia|].
  split; [vm_compute; reflexivity|]. split; [reflexivity|]. cbn. lia.
Qed.

(** C2 (amended): [ErrorPut] sets [redraw] and compares the size with
    [totalBytesRead], not with the position of the bar: when
    [totalBytesRead] is greater than the size, the position becomes
    [totalBytesRead - size], which is positive, and which is the position
    before minus the size when that position was [totalBytesRead];
    otherwise the position stays; so for a size of at least zero a position
    of at least zero stays so. *)
Theorem ErrorPut_position (a : actor) (size : Z) :
  exists a',
    handle a (barSend.msg (barSend.ErrorPut size)) = Ok (Continue a')
    /\ redraw a' = true
    /\ (totalBytesRead a <= size -> pb.current (bar a') = pb.current (bar a))
    /\ (size < totalBytesRead a ->
        Int64.in_range (totalBytesRead a - size) ->
        pb.current (bar a') = totalBytesRead a - size
        /\ 0 < pb.current (bar a'))
    /\ (0 <= size -> Int64.in_range (totalBytesRead a) ->
        0 <= pb.current (bar a) -> 0 <= pb.current (bar a'))
    /\ (pb.current (bar a) = totalBytesRead a ->
        size < pb.current (bar a) ->
        Int64.in_range (pb.current (bar a) - size) ->
        pb.current (bar a') = pb.current (bar a) - size).
Proof.
  rewrite handle_ErrorPut. eexists. split; [reflexivity|].
  destruct (Z.ltb_spec size (totalBytesRead a)) as [Hlt|Hge]; cbn.
  - split; [reflexivity|]. split; [lia|]. split; [|split].
    + intros _ Hr. unfold Int64.sub. rewrite Int64Facts.wrap_id by exact Hr. lia.
    + intros Hs Hr _. unfold Int64.sub. rewrite Int64Facts.wrap_id; [lia|].
      revert Hr. Int64Facts.unfold_consts. lia.
    + intros Heq _ Hr. unfold Int64.sub. rewrite <- Heq.
      apply Int64Facts.wrap_id. exact Hr.
  - split; [reflexivity|]. split; [reflexivity|]. split; [lia|].
    split; [lia|]. intros Heq Hlt. lia.
Qed.

Lemma ErrorPut_position_witness :
  exists a a',
    run (newCpBar 80) [recv (barSend.progress 10)] = Ok (Continue a)
    /\ handle a (barSend.msg (barSend.ErrorPut 3)) = Ok (Continue a')
    /\ pb.current (bar a') = 7.
Proof.
  eexists.
  destruct (ErrorPut_position
              (mkActor false false EmptyString 10 (pb.mkBar 0 10 80 false false) [])
              3) as [a' [H [_ [_ [Hc _]]]]].
  exists a'. split; [vm_compute; reflexivity|]. split; [exact H|].
  apply Hc; cbn; [lia|]. Int64Facts.unfold_consts. lia.
Defined.

(** ** Starting the bar *)

Lemma run_app (pre post : list event) (a a1 : actor) :
  run a pre = Ok (Continue a1) -> run a (pre ++ post) = run a1 post.
Proof.
  revert a. induction pre as [|e pre IH]; intros a H; cbn [run app] in *.
  - inversion H. reflexivity.
  - destruct (step a e) as [[a'|a']|]; cbn [bind] in *; try discriminate.
    apply IH. exact H.
Qed.

Lemma step_started_mono (a : actor) (e : event) (o : outcome) :
  step a e = Ok o -> started a = true -> started (state_of o) = true.
Proof.
  intros H Hs. rewrite (step_started _ _ _ H).
  destruct e as [[[] ?]|]; rewrite Hs; reflexivity.
Qed.

Lemma run_started_mono (es : list event) :
  forall a o, run a es = Ok o -> started a = true -> started (state_of o) = true.
Proof.
  induction es as [|e es IH]; intros a o H Hs; cbn [run] in H.
  - inversion H. exact Hs.
  - destruct (step a e) as [o1|] eqn:Ho1; cbn [bind] in H; [|discriminate].
    pose proof (step_started_mono _ _ _ Ho1 Hs) as Hs1.
    destruct o1 as [a'|a'].
    + apply (IH a'); assumption.
    + inversion H. subst. exact Hs1.
Qed.

Lemma starts_iff (a : actor) (e : event) :
  starts a e <-> started a = false /\ progress_with_total a e.
Proof.
  unfold starts, progress_with_total. split.
  - intros [Hs [o [Hstep Hso]]]. split; [exact Hs|].
    rewrite (step_started _ _ _ Hstep), Hs in Hso.
    destruct e as [[cmd arg]|s]; [|discriminate].
    destruct cmd; try discriminate. cbn [orb] in Hso.
    destruct (Z.ltb_spec 0 (pb.Total (bar a))); [|discriminate].
    split; [assumption|].
    destruct arg as [|d|c]; cbn in Hstep; try discriminate.
    exists d. reflexivity.
  - intros [Hs [Ht [d ->]]]. split; [exact Hs|].
    cbn [step]. change (mkMsg cpBarCmdProgress (Int64Val d))
      with (barSend.msg (barSend.progress d)).
    rewrite handle_progress. eexists. split; [reflexivity|].
    destruct (Z.ltb_spec 0 (pb.Total (bar a))); [|lia].
    rewrite Hs. cbn. destruct (0 <? d); reflexivity.
Qed.

(** The loop is started exactly when it has handled a progress message at
    a positive total. *)
Lemma run_started_iff (pre : list event) :
  forall a0 a1, run a0 pre = Ok (Continue a1) -> started a0 = false ->
  (started a1 = true <->
   exists p1 e1 p2 a', pre = p1 ++ e1 :: p2
                       /\ run a0 p1 = Ok (Continue a')
                       /\ progress_with_total a' e1).
Proof.
  induction pre as [|e pre IH]; intros a0 a1 Hrun Hs0.
  - cbn in Hrun. inversion Hrun. subst. split.
    + congruence.
    + intros [p1 [e1 [p2 [a' [Heq _]]]]]. destruct p1; discriminate.
  - cbn [run] in Hrun.
    destruct (step a0 e) as [o1|] eqn:Ho1; cbn [bind] in Hrun; [|discriminate].
    destruct o1 as [a0'|a0']; [|discriminate].
    destruct (started a0') eqn:Hs0'.
    + assert (Hpwt : progress_with_total a0 e).
      { apply (starts_iff a0 e). split; [exact Hs0|].
        exists (Continue a0'). split; [exact Ho1|exact Hs0']. }
      split.
      * intros _. exists [], e, pre, a0.
        split; [reflexivity|]. split; [reflexivity|exact Hpwt].
      * intros _.
        apply (run_started_mono pre a0' (Continue a1) Hrun Hs0').
    + rewrite (IH a0' a1 Hrun Hs0'). split.
      * intros [p1 [e1 [p2 [a' [Heq [Hr Hp]]]]]].
        exists (e :: p1), e1, p2, a'. split; [rewrite Heq; reflexivity|].
        split; [|exact Hp]. cbn [run]. rewrite Ho1. exact Hr.
      * intros [p1 [e1 [p2 [a' [Heq [Hr Hp]]]]]].
        destruct p1 as [|e' p1]; cbn [app] in Heq; inversion Heq; subst.
        -- cbn in Hr. inversion Hr. subst.
           assert (Hst : starts a' e1) by (apply starts_iff; split; assumption).
           destruct Hst as [_ [o [Ho Hso]]]. rewrite Ho1 in Ho.
           inversion Ho. subst. cbn in Hso. congruence.
        -- exists p1, e1, p2, a'. split; [reflexivity|]. split; [|exact Hp].
           cbn [run] in Hr. rewrite Ho1 in Hr. exact Hr.
Qed.

Lemma progress_run (ds : list Z) :
  forall a, Forall (fun d => 0 <= d) ds ->
  Int64.in_range (pb.current (bar a)) ->
  exists a', run a (map (fun d => recv (barSend.progress d)) ds) = Ok (Continue a')
             /\ pb.current (bar a') = Int64.wrap (pb.current (bar a) + zsum ds).
Proof.
  induction ds as [|d ds IH]; intros a Hds Hr; cbn [map run zsum fold_right].
  - exists a. split; [reflexivity|].
    rewrite Z.add_0_r, Int64Facts.wrap_id by exact Hr. reflexivity.
  - inversion Hds as [|? ? Hd Hds']; subst.
    unfold recv at 1. cbn [step]. rewrite handle_progress. cbv zeta. cbn [bind].
    match goal with
    | |- exists a', run ?a1 _ = _ /\ _ =>
        assert (Hc : pb.current (bar a1) = Int64.wrap (pb.current (bar a) + d))
    end.
    { destruct (Z.ltb_spec 0 d);
        destruct ((0 <? pb.Total (bar a)) && negb (started a)); cbn;
        try reflexivity;
        replace d with 0 by lia; rewrite Z.add_0_r;
        symmetry; apply Int64Facts.wrap_id; exact Hr. }
    match goal with
    | |- exists a', run ?a1 _ = _ /\ _ =>
        destruct (IH a1 Hds') as [a' [Hrun Hcur]]
    end.
    { rewrite Hc. apply Int64Facts.wrap_range. }
    exists a'. split; [exact Hrun|].
    rewrite Hcur, Hc, Int64Facts.wrap_add_l, Z.add_assoc. reflexivity.
Qed.

(** C4: [started] is never reset; from a state that is not started, the
    loop switches to started while handling an event exactly when that event
    is a progress message, the total is positive and no earlier progress
    message was handled at a positive total, hence at most once; and over
    progress messages with arguments of at least zero the position moves up
    by their int64 sum, which is their sum when it fits. *)
Theorem started_once (a0 : actor) :
  started a0 = false ->
  (forall a e o, step a e = Ok o -> started a = true ->
     started (state_of o) = true)
  /\ (forall pre a1 e, run a0 pre = Ok (Continue a1) ->
      (starts a1 e <->
       progress_with_total a1 e
       /\ forall p1 e1 p2 a', pre = p1 ++ e1 :: p2 ->
            run a0 p1 = Ok (Continue a') -> ~ progress_with_total a' e1))
  /\ (forall pre a1 e mid a2 e', run a0 pre = Ok (Continue a1) -> starts a1 e ->
      run a0 (pre ++ e :: mid) = Ok (Continue a2) -> ~ starts a2 e')
  /\ (forall ds, Forall (fun d => 0 <= d) ds ->
      Int64.in_range (pb.current (bar a0)) ->
      exists a', run a0 (map (fun d => recv (barSend.progress d)) ds)
                 = Ok (Continue a')
                 /\ pb.current (bar a')
                    = Int64.sum_from (pb.current (bar a0)) ds
                 /\ (Int64.in_range (pb.current (bar a0) + zsum ds) ->
                     pb.current (bar a') = pb.current (bar a0) + zsum ds)).
Proof.
  intros Hs0.
  assert (Hfirst : forall pre a1 e, run a0 pre = Ok (Continue a1) ->
            (starts a1 e <->
             progress_with_total a1 e
             /\ forall p1 e1 p2 a', pre = p1 ++ e1 :: p2 ->
                  run a0 p1 = Ok (Continue a') -> ~ progress_with_total a' e1)).
  { intros pre a1 e Hrun. rewrite starts_iff.
    pose proof (run_started_iff pre a0 a1 Hrun Hs0) as Hiff. split.
    - intros [Hs1 Hp]. split; [exact Hp|].
      intros p1 e1 p2 a' Heq Hr Hp'.
      assert (started a1 = true) by (apply Hiff; eauto 8). congruence.
    - intros [Hp Hnone]. split; [|exact Hp].
      destruct (started a1) eqn:Hs1; [|reflexivity].
      destruct (proj1 Hiff eq_refl) as [p1 [e1 [p2 [a' [Heq [Hr Hp']]]]]].
      exfalso. exact (Hnone p1 e1 p2 a' Heq Hr Hp'). }
  split; [exact step_started_mono|]. split; [exact Hfirst|]. split.
  - intros pre a1 e mid a2 e' Hrun1 Hst Hrun2 Hst'.
    apply (Hfirst pre a1 e Hrun1) in Hst. destruct Hst as [Hp _].
    apply (Hfirst (pre ++ e :: mid) a2 e' Hrun2) in Hst'.
    destruct Hst' as [_ Hnone].
    exact (Hnone pre e mid a1 eq_refl Hrun1 Hp).
  - intros ds Hds Hr.
    destruct (progress_run ds a0 Hds Hr) as [a' [Hrun Hcur]].
    exists a'. split; [exact Hrun|]. split.
    + rewrite Hcur. symmetry. apply Int64Facts.sum_from_in_range. exact Hr.
    + intros Hsum. rewrite Hcur. apply Int64Facts.wrap_id. exact Hsum.
Qed.

Lemma started_once_witness :
  exists a',
    run (newCpBar 80) (map (fun d => recv (barSend.progress d)) [3; 0; 4])
    = Ok (Continue a')
    /\ pb.current (bar a') = 7.
Proof.
  destruct (started_once (newCpBar 80) eq_refl) as [_ [_ [_ H]]].
  destruct (H [3; 0; 4]) as [a' [Hrun [Hsum _]]].
  - repeat (apply Forall_cons; [lia|]). apply Forall_nil.
  - cbn. Int64Facts.unfold_consts. lia.
  - exists a'. split; [exact Hrun|]. rewrite Hsum. vm_compute. reflexivity.
Defined.

(** The bar starts at the first progress message after the total became
    positive, and only there. *)
Example started_after_Extend :
  exists a1 a2 a3,
    run (newCpBar 80) [recv (barSend.progress 1)] = Ok (Continue a1)
    /\ started a1 = false
    /\ run a1 [recv (barSend.Extend 9)] = Ok (Continue a2)
    /\ started a2 = false
    /\ run a2 [recv (barSend.progress 2)] = Ok (Continue a3)
    /\ started a3 = true /\ pb.current (bar a3) = 3.
Proof.
  do 3 eexists. repeat split; vm_compute; reflexivity.
Qed.

(** ** The proxy reader *)

(** C7: [copyReader.Read] calls the wrapped reader on the buffer, then sends
    one progress message carrying the count the wrapped reader returned,
    zero included, and returns the wrapped reader's buffer, count and error
    as they are. *)
Theorem copyReader_Read_passthrough {R : Type} `{Reader R}
    (r : copyReader R) (p p' : list Byte.byte) (inner' : R)
    (n : Z) (err : option error) :
  Read (inner r) p = (inner', p', n, err) ->
  copyReader_Read r p
  = (mkCopyReader inner', p', (n, err),
     [InnerRead p; OnChannel (Send (mkMsg cpBarCmdProgress (Int64Val n)))]).
Proof.
  intros HRead. unfold copyReader_Read. rewrite HRead. reflexivity.
Qed.

Lemma copyReader_Read_passthrough_witness :
  copyReader_Read (mkCopyReader [Byte.x61; Byte.x62; Byte.x63])
                  [Byte.x00; Byte.x00]
  = (mkCopyReader [Byte.x63], [Byte.x61; Byte.x62], (2, None),
     [InnerRead [Byte.x00; Byte.x00];
      OnChannel (Send (mkMsg cpBarCmdProgress (Int64Val 2)))]).
Proof.
  apply (copyReader_Read_passthrough
           (mkCopyReader [Byte.x61; Byte.x62; Byte.x63]) [Byte.x00; Byte.x00]).
  reflexivity.
Defined.

Example copyReader_Read_at_end :
  copyReader_Read (mkCopyReader (@nil Byte.byte)) [Byte.x00]
  = (mkCopyReader [], [Byte.x00], (0, Some EOF),
     [InnerRead [Byte.x00];
      OnChannel (Send (mkMsg cpBarCmdProgress (Int64Val 0)))]).
Proof. reflexivity. Qed.

(** ** Shutdown *)

Section Shutdown.

Lemma snoc_split {A : Type} (tr pre post : list A) (l x : A) :
  tr ++ [l] = pre ++ x :: post ->
  (pre = tr /\ x = l /\ post = [])
  \/ exists post', post = post' ++ [l] /\ tr = pre ++ x :: post'.
Proof.
  intros Heq. destruct (exists_last (l := x :: post)) as [front [y Hy]];
    [discriminate|].
  rewrite Hy, app_assoc in Heq. apply app_inj_tail in Heq.
  destruct Heq as [Htr Hl]. subst y.
  destruct post as [|z post].
  - left. destruct front as [|f front]; cbn in Hy.
    + inversion Hy. subst. rewrite app_nil_r. auto.
    + inversion Hy as [[Hx Hnil]]. destruct front; discriminate.
  - right. destruct front as [|f front]; cbn in Hy; [discriminate|].
    inversion Hy as [[Hx Hrest]]. subst f.
    exists front. split; [exact Hrest|exact Htr].
Qed.

Lemma close_after_signal_snoc (tr : list label) (l : label) :
  close_after_signal tr -> (l = Closed -> In Signalled tr) ->
  close_after_signal (tr ++ [l]).
Proof.
  intros Htr Hl pre post Heq.
  destruct (snoc_split _ _ _ _ _ Heq) as [[-> [Hx _]]|[post' [_ Htr']]].
  - apply Hl. symmetry. exact Hx.
  - exact (Htr pre post' Htr').
Qed.

Lemma signal_after_finish_snoc (tr : list label) (l : label) :
  signal_after_finish tr -> (l = Signalled -> Exists handled_finish tr) ->
  signal_after_finish (tr ++ [l]).
Proof.
  intros Htr Hl pre post Heq.
  destruct (snoc_split _ _ _ _ _ Heq) as [[-> [Hx _]]|[post' [_ Htr']]].
  - apply Hl. symmetry. exact Hx.
  - exact (Htr pre post' Htr').
Qed.

Lemma signal_once_snoc (tr : list label) (l : label) :
  signal_once tr -> (l = Signalled -> ~ In Signalled tr) ->
  signal_once (tr ++ [l]).
Proof.
  intros Htr Hl pre post Heq.
  destruct (snoc_split _ _ _ _ _ Heq) as [[-> [Hx ->]]|[post' [-> Htr']]].
  - split; [apply Hl; symmetry; exact Hx|intros []].
  - destruct (Htr pre post' Htr') as [Hpre Hpost]. split; [exact Hpre|].
    intros Hin. apply in_app_or in Hin. destruct Hin as [Hin|[Hin|[]]].
    + exact (Hpost Hin).
    + apply (Hl Hin). rewrite Htr'. apply in_or_app. right. left. reflexivity.
Qed.

Lemma nothing_after_finish_snoc (tr : list label) (l : label) :
  nothing_after_finish tr ->
  (is_handled l -> ~ Exists handled_finish tr) ->
  nothing_after_finish (tr ++ [l]).
Proof.
  intros Htr Hl pre x post Heq Hx.
  destruct (snoc_split _ _ _ _ _ Heq) as [[-> [_ ->]]|[post' [-> Htr']]].
  - apply Forall_nil.
  - apply Forall_app. split; [exact (Htr pre x post' Htr' Hx)|].
    apply Forall_cons; [|apply Forall_nil].
    intros Hh. apply (Hl Hh). rewrite Htr'.
    apply Exists_app. right. apply Exists_cons_hd. exact Hx.
Qed.

(** Threads *)

Lemma thread_at_mono (tr : list label) (l : label) (t : list chanOp) :
  thread_at tr t -> thread_at (tr ++ [l]) t.
Proof.
  intros [cs|cs|cs Hin]; constructor.
  apply in_or_app. left. exact Hin.
Qed.

Lemma program_head (cs : list barSend.call) (op : chanOp) (rest : list chanOp) :
  barSend.program cs = op :: rest ->
  exists m, op = Send m
            /\ ((exists cs', rest = barSend.program cs')
                \/ exists cs', rest = RecvFinish :: CloseCmd :: barSend.program cs').
Proof.
  destruct cs as [|c cs]; [discriminate|].
  unfold barSend.program. cbn [flat_map].
  destruct c; cbn [barSend.ops app]; intros Heq; inversion Heq; subst;
    eexists; (split; [reflexivity|]);
    solve [left; exists cs; reflexivity | right; exists cs; reflexivity].
Qed.

Lemma thread_send (tr : list label) (m : barMsg) (rest : list chanOp) :
  thread_at tr (Send m :: rest) -> thread_at tr rest.
Proof.
  intros Hat. inversion Hat as [cs Heq|cs Heq|cs Hin Heq].
  destruct (program_head cs _ _ Heq) as [_ [_ [[cs' ->]|[cs' ->]]]];
    constructor.
Qed.

Lemma thread_recv (tr : list label) (rest : list chanOp) :
  thread_at tr (RecvFinish :: rest) ->
  thread_at (tr ++ [Signalled]) rest.
Proof.
  intros Hat. inversion Hat as [cs Heq|cs Heq|cs Hin Heq].
  - destruct (program_head cs _ _ Heq) as [m [Hm _]]. discriminate.
  - apply at_close. apply in_or_app. right. left. reflexivity.
Qed.

Lemma thread_close (tr : list label) (rest : list chanOp) :
  thread_at tr (CloseCmd :: rest) -> thread_at tr rest /\ In Signalled tr.
Proof.
  intros Hat. inversion Hat as [cs Heq|cs Heq|cs Hin Heq].
  - destruct (program_head cs _ _ Heq) as [m [Hm _]]. discriminate.
  - split; [constructor|exact Hin].
Qed.

Lemma threads_focus (tr : list label) (pre post : list (list chanOp))
      (t : list chanOp) :
  Forall (thread_at tr) (pre ++ t :: post) ->
  thread_at tr t
  /\ forall tr' t', (forall u, thread_at tr u -> thread_at tr' u) ->
                    thread_at tr' t' ->
                    Forall (thread_at tr') (pre ++ t' :: post).
Proof.
  intros Hall. apply Forall_app in Hall. destruct Hall as [Hpre Hrest].
  inversion Hrest as [|? ? Ht Hpost]; subst. split; [exact Ht|].
  intros tr' t' Hmono Ht'. apply Forall_app. split.
  - eapply Forall_impl; [exact Hmono|exact Hpre].
  - apply Forall_cons; [exact Ht'|].
    eapply Forall_impl; [exact Hmono|exact Hpost].
Qed.

End Shutdown.

Section ShutdownInvariant.

Lemma finish_msg (m : barMsg) :
  is_finish (Recv m) = true <-> Cmd m = cpBarCmdFinish.
Proof.
  destruct m as [[] arg]; cbn; split; intros H;
    solve [reflexivity | discriminate].
Qed.

Lemma actor_inv_snoc (tr : list label) (l : label) (st : actorStatus) :
  actor_inv tr st -> l <> Signalled -> ~ handled_finish l ->
  actor_inv (tr ++ [l]) st.
Proof.
  intros Hinv Hs Hf. destruct st as [a|a|a|]; cbn in *; try exact I.
  - destruct Hinv as [Hns Hnf]. split.
    + intros Hin. apply in_app_or in Hin.
      destruct Hin as [Hin|[Hin|[]]]; [exact (Hns Hin)|exact (Hs Hin)].
    + intros Hex. apply Exists_app in Hex. destruct Hex as [Hex|Hex].
      * exact (Hnf Hex).
      * inversion Hex as [? ? Hl|? ? Hl]; [exact (Hf Hl)|inversion Hl].
  - destruct Hinv as [Hns Hf']. split.
    + intros Hin. apply in_app_or in Hin.
      destruct Hin as [Hin|[Hin|[]]]; [exact (Hns Hin)|exact (Hs Hin)].
    + apply Exists_app. left. exact Hf'.
Qed.

Lemma not_finish_label (l : label) :
  (forall m, l <> Handled m) -> ~ handled_finish l.
Proof. intros Hl [m [Heq _]]. exact (Hl m Heq). Qed.

Lemma protocol_snoc_silent (tr : list label) (l : label) :
  protocol tr -> l <> Closed -> l <> Signalled -> ~ is_handled l ->
  protocol (tr ++ [l]).
Proof.
  intros [H1 [H2 [H3 H4]]] Hc Hs Hh. split; [|split; [|split]].
  - apply close_after_signal_snoc; [exact H1|]. intros Heq. contradiction.
  - apply signal_after_finish_snoc; [exact H2|]. intros Heq. contradiction.
  - apply signal_once_snoc; [exact H3|]. intros Heq. contradiction.
  - apply nothing_after_finish_snoc; [exact H4|]. intros Hh'. contradiction.
Qed.

Ltac label_neq :=
  solve [discriminate
        |intros [? Habs]; discriminate Habs
        |intros [? [Habs _]]; discriminate Habs
        |intros ? Habs; discriminate Habs].

Lemma in_snoc_l {A : Type} (x l : A) (tr : list A) :
  In x tr -> In x (tr ++ [l]).
Proof. intros H. apply in_or_app. left. exact H. Qed.

(** Every transition keeps the invariant and extends a trace that
    follows the protocol to one that does. *)
Lemma inv_step (tr : list label) (s s' : system) (l : label) :
  sinv tr s -> protocol tr -> sysStep s l s' ->
  sinv (tr ++ [l]) s' /\ protocol (tr ++ [l]).
Proof.
  intros [Hth Hcl Hact] Hproto Hstep.
  destruct Hstep as [a m o pre rest post Hh
                    |a m pre rest post Hh
                    |st m pre rest post Hst
                    |a c pre rest post
                    |st pre rest post Hst
                    |st pre rest post Hst
                    |a ts
                    |a c ts str Hstarted];
    cbn [threads closed act] in *.
  - (* a message is handled *)
    destruct (threads_focus _ _ _ _ Hth) as [Ht Hrebuild].
    destruct Hact as [Hns Hnf].
    assert (Hact' : actor_inv (tr ++ [Handled m]) (after o)).
    { destruct (handle_outcome _ _ _ Hh) as [[Hf [a' ->]]|[Hf [a' ->]]];
        cbn [after actor_inv].
      - split.
        + intros Hin. apply in_app_or in Hin.
          destruct Hin as [Hin|[Hin|[]]]; [exact (Hns Hin)|discriminate].
        + apply Exists_app. right. apply Exists_cons_hd.
          exists m. split; [reflexivity|apply finish_msg; exact Hf].
      - apply (actor_inv_snoc tr (Handled m) (Looping a')).
        + split; assumption.
        + discriminate.
        + intros [m' [Heq Hcmd]]. inversion Heq. subst m'.
          apply finish_msg in Hcmd. congruence. }
    split.
    + constructor; cbn [threads closed act].
      * apply Hrebuild; [apply thread_at_mono|].
        apply thread_at_mono. exact (thread_send _ _ _ Ht).
      * discriminate.
      * exact Hact'.
    + destruct Hproto as [H1 [H2 [H3 H4]]]. split; [|split; [|split]].
      * apply close_after_signal_snoc; [exact H1|discriminate].
      * apply signal_after_finish_snoc; [exact H2|discriminate].
      * apply signal_once_snoc; [exact H3|discriminate].
      * apply nothing_after_finish_snoc; [exact H4|]. intros _. exact Hnf.
  - (* the handler panics *)
    destruct (threads_focus _ _ _ _ Hth) as [Ht Hrebuild]. split.
    + constructor; cbn [threads closed act].
      * apply Hrebuild; [apply thread_at_mono|].
        apply thread_at_mono. exact (thread_send _ _ _ Ht).
      * discriminate.
      * exact I.
    + apply protocol_snoc_silent; [exact Hproto|label_neq..].
  - (* send on the closed channel *)
    destruct (threads_focus _ _ _ _ Hth) as [Ht Hrebuild]. split.
    + constructor; cbn [threads closed act].
      * apply Hrebuild; [apply thread_at_mono|].
        apply thread_at_mono. exact (thread_send _ _ _ Ht).
      * intros _. apply in_snoc_l. apply Hcl. reflexivity.
      * exact I.
    + apply protocol_snoc_silent; [exact Hproto|label_neq..].
  - (* the completion signal *)
    destruct (threads_focus _ _ _ _ Hth) as [Ht Hrebuild].
    destruct Hact as [Hns Hf]. split.
    + constructor; cbn [threads closed act].
      * apply Hrebuild; [apply thread_at_mono|].
        exact (thread_recv _ _ Ht).
      * intros _. apply in_or_app. right. left. reflexivity.
      * exact I.
    + destruct Hproto as [H1 [H2 [H3 H4]]]. split; [|split; [|split]].
      * apply close_after_signal_snoc; [exact H1|discriminate].
      * apply signal_after_finish_snoc; [exact H2|]. intros _. exact Hf.
      * apply signal_once_snoc; [exact H3|]. intros _. exact Hns.
      * apply nothing_after_finish_snoc; [exact H4|]. label_neq.
  - (* close *)
    destruct (threads_focus _ _ _ _ Hth) as [Ht Hrebuild].
    destruct (thread_close _ _ Ht) as [Hrest Hsig]. split.
    + constructor; cbn [threads closed act].
      * apply Hrebuild; [apply thread_at_mono|].
        apply thread_at_mono. exact Hrest.
      * intros _. apply in_snoc_l. exact Hsig.
      * apply actor_inv_snoc; [exact Hact|discriminate|].
        apply not_finish_label. discriminate.
    + destruct Hproto as [H1 [H2 [H3 H4]]]. split; [|split; [|split]].
      * apply close_after_signal_snoc; [exact H1|]. intros _. exact Hsig.
      * apply signal_after_finish_snoc; [exact H2|discriminate].
      * apply signal_once_snoc; [exact H3|discriminate].
      * apply nothing_after_finish_snoc; [exact H4|]. label_neq.
  - (* close of the closed channel *)
    destruct (threads_focus _ _ _ _ Hth) as [Ht Hrebuild].
    destruct (thread_close _ _ Ht) as [Hrest Hsig]. split.
    + constructor; cbn [threads closed act].
      * apply Hrebuild; [apply thread_at_mono|].
        apply thread_at_mono. exact Hrest.
      * intros _. apply in_snoc_l. exact Hsig.
      * exact I.
    + apply protocol_snoc_silent; [exact Hproto|label_neq..].
  - (* the loop sees the closed channel *)
    split.
    + constructor; cbn [threads closed act].
      * eapply Forall_impl; [|exact Hth]. intros u. apply thread_at_mono.
      * intros _. apply in_snoc_l. apply Hcl. reflexivity.
      * exact I.
    + apply protocol_snoc_silent; [exact Hproto|label_neq..].
  - (* rendering *)
    split.
    + constructor; cbn [threads closed act].
      * eapply Forall_impl; [|exact Hth]. intros u. apply thread_at_mono.
      * intros Hc. apply in_snoc_l. apply Hcl. exact Hc.
      * apply (actor_inv_snoc tr (Rendered str) (Looping a));
          [exact Hact|discriminate|].
        apply not_finish_label. discriminate.
    + apply protocol_snoc_silent; [exact Hproto|label_neq..].
Qed.

Lemma boot_inv (a : actor) (progs : list (list barSend.call)) :
  sinv [] (boot a progs) /\ protocol [].
Proof.
  split.
  - constructor; cbn [boot threads closed act].
    + apply Forall_forall. intros t Hin. apply in_map_iff in Hin.
      destruct Hin as [cs [<- _]]. constructor.
    + discriminate.
    + split; [intros []|]. intros Hex. inversion Hex.
  - split; [|split; [|split]].
    + intros pre post Heq. destruct pre; discriminate Heq.
    + intros pre post Heq. destruct pre; discriminate Heq.
    + intros pre post Heq. destruct pre; discriminate Heq.
    + intros pre l post Heq. destruct pre; discriminate Heq.
Qed.

Lemma exec_inv (a : actor) (progs : list (list barSend.call))
      (tr : list label) (s : system) :
  exec (boot a progs) tr s -> sinv tr s /\ protocol tr.
Proof.
  intros Hexec. remember (boot a progs) as s0 eqn:Hs0.
  induction Hexec as [s|s tr s' l s'' Hexec IH Hstep].
  - subst s. apply boot_inv.
  - destruct (IH Hs0) as [Hinv Hproto].
    exact (inv_step tr s' s'' l Hinv Hproto Hstep).
Qed.

(** The intended shutdown: one goroutine calls [Finish]. *)
Lemma shutdown_run (a : actor) :
  exec (boot a [[barSend.Finish]])
       [Handled (barSend.msg barSend.Finish); Signalled; Closed]
       (mkSystem (Exited (finished a)) true [[]]).
Proof.
  apply (exec_snoc _ [Handled (barSend.msg barSend.Finish); Signalled]
           (mkSystem (Exited (finished a)) false [[CloseCmd]])).
  - apply (exec_snoc _ [Handled (barSend.msg barSend.Finish)]
             (mkSystem (Signalling (finished a)) false [[RecvFinish; CloseCmd]])).
    + apply (exec_snoc _ [] (boot a [[barSend.Finish]])); [apply exec_nil|].
      exact (step_send a (barSend.msg barSend.Finish) (Finishing (finished a))
               [] [RecvFinish; CloseCmd] [] (handle_Finish a)).
    + exact (step_signal (finished a) false [] [CloseCmd] []).
  - apply (step_close (Exited (finished a)) [] [] []). discriminate.
Qed.

End ShutdownInvariant.

(** C8: the loop, on a [Finish] message, calls [bar.Finish()] if and only
    if the bar was started and goes on to the completion signal; the
    goroutine calling [Finish] sends the message, receives the signal and
    closes the channel, in this order, and this shutdown runs to its end; and
    in every execution, whatever the other goroutines call, the channel is
    closed only after the completion signal, the signal is given only after
    the loop handled [Finish], at most once, and the loop handles no message
    after [Finish]. *)
Theorem Finish_protocol (a : actor) :
  (forall m, Cmd m = cpBarCmdFinish -> handle a m = Ok (Finishing (finished a)))
  /\ (pb.isFinish (bar (finished a)) = started a || pb.isFinish (bar a))
  /\ barSend.ops barSend.Finish
     = [Send (barSend.msg barSend.Finish); RecvFinish; CloseCmd]
  /\ exec (boot a [[barSend.Finish]])
          [Handled (barSend.msg barSend.Finish); Signalled; Closed]
          (mkSystem (Exited (finished a)) true [[]])
  /\ (forall progs tr s, exec (boot a progs) tr s ->
      close_after_signal tr /\ signal_after_finish tr
      /\ signal_once tr /\ nothing_after_finish tr).
Proof.
  split; [|split; [|split; [|split]]].
  - intros [cmd arg] Hcmd. cbn in Hcmd. subst cmd. reflexivity.
  - unfold finished. destruct (started a); reflexivity.
  - reflexivity.
  - apply shutdown_run.
  - intros progs tr s Hexec. exact (proj2 (exec_inv a progs tr s Hexec)).
Qed.

Lemma Finish_protocol_witness :
  close_after_signal
    [Handled (barSend.msg barSend.Finish); Signalled; Closed]
  /\ signal_once [Handled (barSend.msg barSend.Finish); Signalled; Closed].
Proof.
  destruct (Finish_protocol (newCpBar 80)) as [_ [_ [_ [Hexec Hsafe]]]].
  destruct (Hsafe _ _ _ Hexec) as [Hclose [_ [Honce _]]].
  split; [exact Hclose|exact Honce].
Defined.

(** * Further properties *)

(** ** What trimming returns *)

Section TrimmingShape.

Import GoStringFacts.

Lemma drop_drop (j k : nat) (s : string) : drop j (drop k s) = drop (k + j) s.
Proof.
  revert s. induction k as [|k IH]; intros s; cbn [drop Nat.add].
  - reflexivity.
  - destruct s as [|a s]; [destruct j; reflexivity|]. apply IH.
Qed.

Lemma byte_at_drop (i : nat) (s : string) :
  byte_at 0 (drop i s) = byte_at i s.
Proof.
  revert s. induction i as [|i IH]; intros s.
  - reflexivity.
  - destruct s as [|a s]; cbn [drop byte_at]; [reflexivity|apply IH].
Qed.

Lemma byte_at_length (i : nat) (s : string) (b : ascii) :
  byte_at i s = Some b -> (i < String.length s)%nat.
Proof.
  revert i. induction s as [|a s IH]; intros i H.
  - destruct i; discriminate H.
  - destruct i as [|i]; cbn [String.length byte_at] in *; [lia|].
    apply IH in H. lia.
Qed.

(** A separator found at a positive index of the candidate lies behind the
    ellipsis, so cutting there leaves a suffix of the message. *)
Lemma cut_behind_ellipsis (t : string) (b : ascii) (i : nat) :
  first_occurrence b ("..." ++ t) i -> (0 < i)%nat ->
  (3 <= i)%nat /\ drop i ("..." ++ t) = drop (i - 3) t
  /\ (i - 3 < String.length t)%nat.
Proof.
  intros [Hat Hbefore] Hpos.
  assert (Hdot : b <> "."%char).
  { intros ->. apply (Hbefore 0%nat Hpos). reflexivity. }
  destruct i as [|[|[|i]]]; cbn in Hat; try lia;
    try (exfalso; apply Hdot; congruence).
  split; [lia|]. split.
  - cbn. replace (i - 0)%nat with i by lia. reflexivity.
  - apply byte_at_length in Hat. lia.
Qed.

End TrimmingShape.

(** X1: wherever line 100 does not overflow, the result of trimming is
    never longer than the message and is the message itself, or the ellipsis
    followed by a suffix of the message, or a suffix of the message that
    begins with the separator byte. *)
Theorem trimBarCaption_shape (m : string) (sep width : Z) :
  Int64.in_range width -> len m <= Int64.max_int -> no_overflow m width ->
  exists r,
    trimBarCaption (mkCaption m sep) width = Ok r
    /\ len r <= len m
    /\ (r = m
        \/ (exists t, is_suffix t m /\ r = ("..." ++ t)%string)
        \/ (is_suffix r m /\ byte_at 0 r = Some (byte_of_rune sep))).
Proof.
  intros Hr Hl Hno.
  destruct (Z.le_gt_cases (len m) width) as [Hfit|Hlong].
  { exists m. rewrite trim_fit by exact Hfit.
    split; [reflexivity|]. split; [lia|]. left. reflexivity. }
  destruct (Z.le_gt_cases width 4) as [Hn|Hwd].
  { exists m. rewrite trim_narrow by (assumption || lia).
    split; [reflexivity|]. split; [lia|]. left. reflexivity. }
  rewrite trim_wide by (assumption || lia). cbv zeta.
  assert (Hk : (Z.to_nat (spec_trimSize m width) <= String.length m)%nat)
    by (unfold spec_trimSize, len in *; lia).
  assert (Hclen : len (candidate m width) = width - 1)
    by (apply len_candidate; lia).
  pose proof (GoStringFacts.IndexByte_bounds (candidate m width) (byte_of_rune sep))
    as Hb.
  destruct (Z.ltb_spec 0 (IndexByte (candidate m width) (byte_of_rune sep)))
    as [Hpos|Hnone].
  - eexists. split; [reflexivity|].
    split; [rewrite GoStringFacts.len_drop by lia; lia|].
    right. right.
    pose proof (GoStringFacts.IndexByte_found _ _ (Z.lt_le_incl _ _ Hpos))
      as Hfirst.
    remember (Z.to_nat (IndexByte (candidate m width) (byte_of_rune sep)))
      as i eqn:Hi.
    assert (Hipos : (0 < i)%nat) by lia.
    pose proof Hfirst as [Hat _].
    rewrite byte_at_drop. split; [|exact Hat].
    unfold candidate in Hfirst |- *.
    destruct (cut_behind_ellipsis _ _ _ Hfirst Hipos) as [H3 [Hcut Hin]].
    exists (Z.to_nat (spec_trimSize m width) + (i - 3))%nat. split.
    + rewrite GoStringFacts.length_drop in Hin. lia.
    + rewrite Hcut. apply drop_drop.
  - eexists. split; [reflexivity|]. split; [lia|].
    right. left. exists (drop (Z.to_nat (spec_trimSize m width)) m). split.
    + exists (Z.to_nat (spec_trimSize m width)). split; [exact Hk|reflexivity].
    + reflexivity.
Qed.

Lemma trimBarCaption_shape_witness :
  exists r,
    trimBarCaption (mkCaption "/a/bb/ccc/dddd" 47) 10 = Ok r
    /\ len r <= len "/a/bb/ccc/dddd".
Proof.
  destruct (trimBarCaption_shape "/a/bb/ccc/dddd" 47 10) as [r [Hok [Hlen _]]].
  - Int64Facts.unfold_consts. lia.
  - unfold len. cbn. Int64Facts.unfold_consts. lia.
  - unfold no_overflow, spec_trimSize, len. cbn. Int64Facts.unfold_consts. lia.
  - exists r. split; [exact Hok|exact Hlen].
Defined.

(** X2: for a message shorter than [2^63 - 4] bytes, trimming panics
    exactly when [length - width + 4] does not fit in an [int], that is for
    a width below [length + 5 - 2^63]; a width of at least zero is always
    safe. *)
Theorem trimBarCaption_panics_iff (m : string) (sep width : Z) :
  Int64.in_range width -> len m + 4 <= Int64.max_int ->
  (trimBarCaption (mkCaption m sep) width = Panic
   <-> width < len m + 5 - 2 ^ 63)
  /\ (0 <= width ->
      exists r, trimBarCaption (mkCaption m sep) width = Ok r).
Proof.
  intros Hr Hl.
  assert (Hl' : len m <= Int64.max_int) by lia.
  assert (Hiff : no_overflow m width <-> ~ width < len m + 5 - 2 ^ 63).
  { unfold no_overflow, spec_trimSize. Int64Facts.unfold_consts. lia. }
  split; [split|].
  - intros Hp. destruct (Z.lt_ge_cases width (len m + 5 - 2 ^ 63)) as [H|H];
      [exact H|].
    destruct (trimBarCaption_no_panic m sep width Hr Hl') as [r Hok];
      [apply Hiff; lia|congruence].
  - intros Hw. apply trimBarCaption_overflow_panics; [assumption..|].
    intros Hno. apply Hiff in Hno. contradiction.
  - intros Hw. apply trimBarCaption_no_panic; [assumption..|].
    apply Hiff. revert Hl Hw. Int64Facts.unfold_consts. lia.
Qed.

Lemma trimBarCaption_panics_iff_witness :
  exists r, trimBarCaption (mkCaption "abc" 47) 2 = Ok r.
Proof.
  destruct (trimBarCaption_panics_iff "abc" 47 2) as [_ H].
  - Int64Facts.unfold_consts. lia.
  - unfold len. cbn. Int64Facts.unfold_consts. lia.
  - apply H. lia.
Defined.

(** ** Panics of the loop body *)

(** X3: an iteration of the loop panics exactly when the message carries an
    argument of another dynamic type than its case asserts (the [Finish]
    case asserts none), or when it is a [SetCaption] whose trimming panics;
    the messages the methods of [barSend] build are all well typed. *)
Theorem handle_panics_iff (a : actor) (m : barMsg) :
  (handle a m = Panic
   <-> well_typed m = false
       \/ exists c, m = mkMsg cpBarCmdSetCaption (CaptionVal c)
                    /\ trimBarCaption c (pb.Width (bar a)) = Panic)
  /\ (forall c, well_typed (barSend.msg c) = true).
Proof.
  split; [|intros []; reflexivity].
  destruct m as [cmd arg]. unfold handle, well_typed. cbn [Cmd Arg].
  destruct cmd; destruct arg; cbn [assert_int64 assert_caption bind]; cbv zeta;
    try (split; [intros _; left; reflexivity|reflexivity]);
    try (split; [intros H; discriminate H
                |intros [H|[c' [H _]]]; discriminate H]).
  - (* progress *)
    destruct (0 <? z);
      (split; [intros H; discriminate H|intros [H|[c' [H _]]]; discriminate H]).
  - (* ErrorPut *)
    cbn [with_redraw totalBytesRead]. destruct (z <? totalBytesRead a);
      (split; [intros H; discriminate H|intros [H|[c' [H _]]]; discriminate H]).
  - (* ErrorGet *)
    destruct (0 <? z);
      (split; [intros H; discriminate H|intros [H|[c' [H _]]]; discriminate H]).
  - (* SetCaption *)
    unfold pb.GetWidth.
    destruct (trimBarCaption c (pb.Width (bar a))) as [s|] eqn:Ht; cbn [bind].
    + split; [intros H; discriminate H|].
      intros [H|[c' [Heq Hp]]]; [discriminate H|].
      inversion Heq. subst c'. congruence.
    + split; [|reflexivity]. intros _. right. exists c. split; [reflexivity|exact Ht].
Qed.

(** ** The caption *)

Lemma handle_barCaption (a : actor) (m : barMsg) (o : outcome) :
  handle a m = Ok o ->
  match m with
  | mkMsg cpBarCmdSetCaption (CaptionVal c) =>
      trimBarCaption c (pb.Width (bar a)) = Ok (barCaption (state_of o))
  | _ => barCaption (state_of o) = barCaption a
  end.
Proof.
  intros H. handle_cases H.
  8: { unfold pb.GetWidth in H.
       destruct (trimBarCaption c (pb.Width (bar a))); cbn [bind] in H;
         [inversion H; reflexivity|discriminate H]. }
  all: crunch H; reflexivity.
Qed.

Lemma Callback_frame (a : actor) (s : string) :
  started (Callback a s) = started a
  /\ barCaption (Callback a s) = barCaption a
  /\ totalBytesRead (Callback a s) = totalBytesRead a
  /\ bar (Callback a s) = bar a.
Proof. unfold Callback. destruct (redraw a); repeat split. Qed.

Lemma run_caption_inv (cap0 : string) (W : Z) (es : list event) :
  forall a acc o, run a es = Ok o -> caption_inv cap0 W a acc ->
  caption_inv cap0 W (state_of o)
    (fold_left (fun acc e =>
                  match e with
                  | Recv (mkMsg cpBarCmdSetCaption (CaptionVal c)) => Some c
                  | _ => acc
                  end) (handled es) acc).
Proof.
  induction es as [|e es IH]; intros a acc o Hrun Hinv; cbn [run handled] in *.
  - inversion Hrun. exact Hinv.
  - destruct (step a e) as [o1|] eqn:Ho1; cbn [bind] in Hrun; [|discriminate].
    assert (Hinv1 : caption_inv cap0 W (state_of o1)
                      (match e with
                       | Recv (mkMsg cpBarCmdSetCaption (CaptionVal c)) => Some c
                       | _ => acc
                       end)).
    { destruct Hinv as [HW Hcap]. split.
      - rewrite (step_Width _ _ _ Ho1). exact HW.
      - destruct e as [m|s]; cbn [step] in Ho1.
        + pose proof (handle_barCaption _ _ _ Ho1) as Hb.
          destruct m as [[] []]; destruct acc; congruence.
        + inversion Ho1. cbn [state_of].
          destruct (Callback_frame a s) as [_ [Hc _]].
          destruct acc; congruence. }
    destruct (step_outcome _ _ _ Ho1) as [[Hf [a' ->]]|[Hf [a' ->]]];
      rewrite Hf; cbn [fold_left state_of] in *.
    + inversion Hrun. subst. exact Hinv1.
    + apply (IH a' _ o Hrun Hinv1).
Qed.

(** X4: only the latest caption counts: after a run of the loop the stored
    caption is the trimmed message of the last [SetCaption] handled, trimmed
    at the width of the bar, and the caption the loop began with when no
    [SetCaption] was handled. *)
Theorem SetCaption_latest (a : actor) (es : list event) (o : outcome) :
  run a es = Ok o ->
  (lastCaption (handled es) = None ->
   barCaption (state_of o) = barCaption a)
  /\ (forall c, lastCaption (handled es) = Some c ->
      trimBarCaption c (pb.Width (bar a)) = Ok (barCaption (state_of o))).
Proof.
  intros Hrun.
  assert (Hinv : caption_inv (barCaption a) (pb.Width (bar a)) a None)
    by (split; reflexivity).
  pose proof (run_caption_inv _ _ es a None o Hrun Hinv) as [_ Hlast].
  fold (lastCaption (handled es)) in Hlast.
  split.
  - intros Hnone. rewrite Hnone in Hlast. exact Hlast.
  - intros c Hsome. rewrite Hsome in Hlast. exact Hlast.
Qed.

Lemma SetCaption_latest_witness :
  exists o,
    run (newCpBar 10)
        [recv (barSend.SetCaption (mkCaption "/a/bb/ccc/dddd" 47));
         recv (barSend.progress 3);
         recv (barSend.SetCaption (mkCaption "/x/yy/zzz/wwww/v" 47))]
    = Ok o
    /\ trimBarCaption (mkCaption "/x/yy/zzz/wwww/v" 47) 10
       = Ok (barCaption (state_of o)).
Proof.
  destruct (run _ _) as [o|] eqn:Hrun; [|vm_compute in Hrun; discriminate Hrun].
  exists o. split; [reflexivity|].
  apply (proj2 (SetCaption_latest _ _ o Hrun)). reflexivity.
Defined.

(** ** The console *)





(** ** The bar and the flag *)

Lemma run_flags (es : list event) :
  forall a o, run a es = Ok o ->
  pb.isStarted (bar a) = started a -> pb.isFinish (bar a) = false ->
  pb.isStarted (bar (state_of o)) = started (state_of o)
  /\ pb.isFinish (bar (state_of o))
     = match o with
       | Continue _ => false
       | Finishing a' => started a'
       end.
Proof.
  induction es as [|e es IH]; intros a o Hrun Hs Hf; cbn [run] in *.
  - inversion Hrun. subst. cbn. split; assumption.
  - destruct (step a e) as [o1|] eqn:Ho1; cbn [bind] in Hrun; [|discriminate].
    assert (H1 : pb.isStarted (bar (state_of o1)) = started (state_of o1)
                 /\ pb.isFinish (bar (state_of o1))
                    = match o1 with
                      | Continue _ => false
                      | Finishing a' => started a'
                      end).
    { destruct e as [m|s]; cbn [step] in Ho1.
      - handle_cases Ho1; crunch Ho1; cbn in *; split; congruence.
      - inversion Ho1. unfold Callback. destruct (redraw a); cbn; split; assumption. }
    destruct o1 as [a'|a'].
    + destruct H1 as [Hs1 Hf1]. apply (IH a' o Hrun Hs1 Hf1).
    + inversion Hrun. subst. exact H1.
Qed.

(** X6: from [newCpBar] on, [bar.Start()] has been called exactly when
    [started] is set, and [bar.Finish()] is called only by the [Finish]
    case and only on a bar that was started: while the loop runs the bar is
    not finished, and when it has handled [Finish] the bar is finished
    exactly when it was started. *)
Theorem bar_follows_started (width : Z) (es : list event) (o : outcome) :
  run (newCpBar width) es = Ok o ->
  pb.isStarted (bar (state_of o)) = started (state_of o)
  /\ pb.isFinish (bar (state_of o))
     = match o with
       | Continue _ => false
       | Finishing a' => started a'
       end.
Proof.
  intros Hrun. apply (run_flags es (newCpBar width) o Hrun); reflexivity.
Qed.

Lemma bar_follows_started_witness :
  exists o,
    run (newCpBar 80)
        [recv (barSend.progress 4); recv barSend.Finish] = Ok o
    /\ pb.isFinish (bar (state_of o)) = false.
Proof.
  destruct (run _ _) as [o|] eqn:Hrun; [|vm_compute in Hrun; discriminate Hrun].
  exists o. split; [reflexivity|].
  destruct (bar_follows_started 80 _ o Hrun) as [_ Hf].
  rewrite Hf. vm_compute in Hrun. inversion Hrun. reflexivity.
Defined.

(** ** The position and the count of bytes read *)

Lemma handle_position_follows (a : actor) (m : barMsg) (o : outcome) :
  handle a m = Ok o -> is_error (Recv m) = false ->
  pb.current (bar a) = totalBytesRead a ->
  pb.current (bar (state_of o)) = totalBytesRead (state_of o).
Proof.
  intros H He Heq. handle_cases H; crunch H; cbn in *;
    try discriminate He; congruence.
Qed.

(** X7: as long as no error message is handled, the position of the bar is
    the count of bytes read: if the two are equal before a run, as they are
    in [newCpBar], they are equal after every run over a stream without
    [ErrorPut] and [ErrorGet]. *)
Theorem position_is_bytes_read (es : list event) :
  forall a o, run a es = Ok o ->
  forallb (fun e => negb (is_error e)) es = true ->
  pb.current (bar a) = totalBytesRead a ->
  pb.current (bar (state_of o)) = totalBytesRead (state_of o).
Proof.
  induction es as [|e es IH]; intros a o Hrun Hne Heq;
    cbn [run forallb] in *.
  - inversion Hrun. exact Heq.
  - apply andb_prop in Hne. destruct Hne as [He Hes].
    apply negb_true_iff in He.
    destruct (step a e) as [o1|] eqn:Ho1; cbn [bind] in Hrun; [|discriminate].
    assert (H1 : pb.current (bar (state_of o1)) = totalBytesRead (state_of o1)).
    { destruct e as [m|s]; cbn [step] in Ho1.
      - exact (handle_position_follows _ _ _ Ho1 He Heq).
      - inversion Ho1. cbn [state_of].
        destruct (Callback_frame a s) as [_ [_ [Ht Hb]]]. rewrite Ht, Hb.
        exact Heq. }
    destruct o1 as [a'|a'].
    + apply (IH a' o Hrun Hes H1).
    + inversion Hrun. subst. exact H1.
Qed.

Lemma position_is_bytes_read_witness :
  exists o,
    run (newCpBar 80)
        [recv (barSend.progress 4); recv (barSend.Extend 9); Tick "[=> ]";
         recv (barSend.progress 5)] = Ok o
    /\ pb.current (bar (state_of o)) = totalBytesRead (state_of o).
Proof.
  destruct (run _ _) as [o|] eqn:Hrun; [|vm_compute in Hrun; discriminate Hrun].
  exists o. split; [reflexivity|].
  apply (position_is_bytes_read _ _ o Hrun); reflexivity.
Defined.

(** X8: [ErrorPut] is idempotent: handling the same [ErrorPut] twice in a
    row leaves the loop in the state one handling leaves it in, so a
    repeated report of one failed write rolls the bar back once. *)
Theorem ErrorPut_idempotent (a : actor) (size : Z) :
  run a [recv (barSend.ErrorPut size); recv (barSend.ErrorPut size)]
  = run a [recv (barSend.ErrorPut size)].
Proof.
  cbn [run recv step]. rewrite handle_ErrorPut. cbn [bind].
  rewrite handle_ErrorPut. cbn [bind].
  destruct (size <? totalBytesRead a) eqn:Hlt; cbn; rewrite Hlt; reflexivity.
Qed.

(** ** After [Finish] *)

Lemma run_handled (es : list event) :
  forall a, run a es = run a (handled es).
Proof.
  induction es as [|e es IH]; intros a; cbn [run handled]; [reflexivity|].
  destruct (is_finish e) eqn:Hf; cbn [run].
  - destruct (step a e) as [o1|] eqn:Ho1; cbn [bind]; [|reflexivity].
    destruct (step_outcome _ _ _ Ho1) as [[_ [a' ->]]|[Hf' _]];
      [reflexivity|congruence].
  - destruct (step a e) as [[a'|a']|]; cbn [bind]; try reflexivity.
    apply IH.
Qed.

Lemma handled_cut (m : barMsg) (pre post : list event) :
  Cmd m = cpBarCmdFinish ->
  handled (pre ++ Recv m :: post) = handled (pre ++ [Recv m]).
Proof.
  intros Hm. induction pre as [|x pre IH]; cbn [app handled].
  - destruct m as [cmd arg]. cbn in Hm. subst cmd. reflexivity.
  - destruct (is_finish x); [reflexivity|]. rewrite IH. reflexivity.
Qed.

Lemma run_finishing_iff (es : list event) :
  forall a o, run a es = Ok o ->
  ((exists a', o = Finishing a') <-> existsb is_finish es = true).
Proof.
  induction es as [|e es IH]; intros a o Hrun; cbn [run existsb] in *.
  - inversion Hrun. split; [intros [a' H]; discriminate H|discriminate].
  - destruct (step a e) as [o1|] eqn:Ho1; cbn [bind] in Hrun; [|discriminate].
    destruct (step_outcome _ _ _ Ho1) as [[Hf [a' ->]]|[Hf [a' ->]]];
      rewrite Hf; cbn [orb].
    + inversion Hrun. split; [reflexivity|]. intros _. exists a'. reflexivity.
    + apply (IH a' o Hrun).
Qed.

(** X9: the loop returns at the first [Finish] message: what follows it in
    the stream has no effect on the result, and a run that does not panic
    ends at the completion signal exactly when the stream holds a [Finish]
    message. *)
Theorem run_stops_at_Finish (a : actor) (es : list event) :
  run a es = run a (handled es)
  /\ (forall pre m post, Cmd m = cpBarCmdFinish ->
      run a (pre ++ Recv m :: post) = run a (pre ++ [Recv m]))
  /\ (forall o, run a es = Ok o ->
      ((exists a', o = Finishing a') <-> existsb is_finish es = true)).
Proof.
  split; [apply run_handled|]. split.
  - intros pre m post Hm.
    rewrite run_handled, (run_handled (pre ++ [Recv m])),
      (handled_cut m pre post Hm).
    reflexivity.
  - intros o. apply run_finishing_iff.
Qed.

(** ** Interleavings *)

Lemma sum_from_perm (l1 l2 : list Z) :
  Permutation l1 l2 -> forall a, Int64.sum_from a l1 = Int64.sum_from a l2.
Proof.
  induction 1 as [|x l l' _ IH|x y l|l l' l'' _ IH1 _ IH2]; intros a.
  - reflexivity.
  - cbn. apply IH.
  - cbn. f_equal. unfold Int64.add.
    rewrite !Int64Facts.wrap_add_l. f_equal. lia.
  - rewrite IH1. apply IH2.
Qed.

Lemma handled_no_finish (es : list event) :
  existsb is_finish es = false -> handled es = es.
Proof.
  induction es as [|e es IH]; cbn [existsb handled]; [reflexivity|].
  intros H. apply orb_false_elim in H. destruct H as [He Hes].
  rewrite He, (IH Hes). reflexivity.
Qed.

Lemma existsb_perm {A : Type} (f : A -> bool) (l1 l2 : list A) :
  Permutation l1 l2 -> existsb f l1 = false -> existsb f l2 = false.
Proof.
  intros Hp H. destruct (existsb f l2) eqn:H2; [|reflexivity].
  apply existsb_exists in H2. destruct H2 as [x [Hin Hx]].
  assert (Hin1 : In x l1) by (apply (Permutation_in x (Permutation_sym Hp) Hin)).
  assert (existsb f l1 = true) by (apply existsb_exists; eauto).
  congruence.
Qed.

(** X10: the total and the count of bytes read do not depend on the order
    in which the messages of concurrent senders arrive: two streams of sent
    events without [Finish] that are permutations of each other both run
    through and end with the same total and the same count. *)
Theorem interleaving_independent (a : actor) (es1 es2 : list event) :
  Permutation es1 es2 ->
  Forall (sent (pb.Width (bar a))) es1 ->
  existsb is_finish es1 = false ->
  exists o1 o2,
    run a es1 = Ok o1 /\ run a es2 = Ok o2
    /\ pb.Total (bar (state_of o1)) = pb.Total (bar (state_of o2))
    /\ totalBytesRead (state_of o1) = totalBytesRead (state_of o2).
Proof.
  intros Hp Hsent Hnf.
  assert (Hsent2 : Forall (sent (pb.Width (bar a))) es2).
  { apply Forall_forall. intros e Hin.
    apply (proj1 (Forall_forall _ _) Hsent).
    apply (Permutation_in e (Permutation_sym Hp) Hin). }
  destruct (run_sent es1 a Hsent) as [o1 H1].
  destruct (run_sent es2 a Hsent2) as [o2 H2].
  exists o1, o2. split; [exact H1|]. split; [exact H2|].
  rewrite (run_Total _ _ _ H1), (run_Total _ _ _ H2).
  rewrite (run_totalBytesRead _ _ _ H1), (run_totalBytesRead _ _ _ H2).
  rewrite (handled_no_finish es1 Hnf).
  rewrite (handled_no_finish es2 (existsb_perm _ _ _ Hp Hnf)).
  split; apply sum_from_perm; apply Permutation_flat_map; exact Hp.
Qed.

Lemma interleaving_independent_witness :
  exists o1 o2,
    run (newCpBar 80)
        [recv (barSend.Extend 5); recv (barSend.progress 2);
         recv (barSend.Extend 7)] = Ok o1
    /\ run (newCpBar 80)
           [recv (barSend.progress 2); recv (barSend.Extend 7);
            recv (barSend.Extend 5)] = Ok o2
    /\ pb.Total (bar (state_of o1)) = pb.Total (bar (state_of o2)).
Proof.
  destruct (interleaving_independent (newCpBar 80)
              [recv (barSend.Extend 5); recv (barSend.progress 2);
               recv (barSend.Extend 7)]
              [recv (barSend.progress 2); recv (barSend.Extend 7);
               recv (barSend.Extend 5)])
    as [o1 [o2 [H1 [H2 [Ht _]]]]].
  - apply Permutation_cons_app with (l1 := [recv (barSend.progress 2);
                                            recv (barSend.Extend 7)])
                                    (l2 := []).
    rewrite app_nil_r. apply Permutation_refl.
  - sent_events.
  - reflexivity.
  - exists o1, o2. split; [exact H1|]. split; [exact H2|exact Ht].
Defined.

(** But whether the bar is started can depend on the order. *)
Example started_depends_on_order :
  exists a1 a2,
    run (newCpBar 80) [recv (barSend.Extend 5); recv (barSend.progress 2)]
    = Ok (Continue a1)
    /\ run (newCpBar 80) [recv (barSend.progress 2); recv (barSend.Extend 5)]
       = Ok (Continue a2)
    /\ started a1 = true /\ started a2 = false.
Proof. do 2 eexists. repeat split; vm_compute; reflexivity. Qed.

(** ** Reading through the proxy *)

(** X11: a read through the reader made by [NewProxyReader] leaves the
    wrapped reader, the buffer and the result as a direct read does and
    sends one message that the loop handles without a panic; handling it
    adds the count to the count of bytes read and to the position when the
    count is positive and changes neither otherwise, and never changes the
    total. *)
Theorem NewProxyReader_counts {R : Type} `{Reader R}
    (r r' : R) (p p' : list Byte.byte) (n : Z) (err : option error)
    (a : actor) :
  Read r p = (r', p', n, err) ->
  exists m a',
    copyReader_Read (NewProxyReader r) p
    = (NewProxyReader r', p', (n, err), [InnerRead p; OnChannel (Send m)])
    /\ handle a m = Ok (Continue a')
    /\ totalBytesRead a'
       = (if 0 <? n then Int64.add (totalBytesRead a) n else totalBytesRead a)
    /\ pb.current (bar a')
       = (if 0 <? n then Int64.add (pb.current (bar a)) n
          else pb.current (bar a))
    /\ pb.Total (bar a') = pb.Total (bar a).
Proof.
  intros HRead. unfold copyReader_Read, NewProxyReader. cbn [inner].
  rewrite HRead. unfold int64_of_int. cbn [barSend.ops map].
  eexists. eexists. split; [reflexivity|].
  rewrite handle_progress. cbv zeta. split; [reflexivity|].
  destruct (0 <? n); destruct ((0 <? pb.Total (bar a)) && negb (started a));
    (split; [|split]); reflexivity.
Qed.

Lemma NewProxyReader_counts_witness :
  exists m a',
    copyReader_Read (NewProxyReader [Byte.x61; Byte.x62; Byte.x63])
                    [Byte.x00; Byte.x00]
    = (NewProxyReader [Byte.x63], [Byte.x61; Byte.x62], (2, None),
       [InnerRead [Byte.x00; Byte.x00]; OnChannel (Send m)])
    /\ handle (newCpBar 80) m = Ok (Continue a')
    /\ totalBytesRead a' = 2.
Proof.
  destruct (NewProxyReader_counts [Byte.x61; Byte.x62; Byte.x63] [Byte.x63]
              [Byte.x00; Byte.x00] [Byte.x61; Byte.x62] 2 None (newCpBar 80))
    as [m [a' [Hr [Hh [Ht _]]]]]; [reflexivity|].
  exists m, a'. split; [exact Hr|]. split; [exact Hh|]. rewrite Ht. reflexivity.
Defined.

(** ** Bounds of the counters *)

Section Bounds.

Lemma zsum_app (l1 l2 : list Z) : zsum (l1 ++ l2) = zsum l1 + zsum l2.
Proof.
  induction l1 as [|x l1 IH]; unfold zsum in *; cbn [app fold_right]; lia.
Qed.

Lemma budget_cons (e : event) (es : list event) :
  budget (e :: es) = budget [e] + budget es.
Proof.
  unfold budget, progressed, gets. cbn [flat_map].
  rewrite !app_nil_r, !zsum_app. lia.
Qed.

Lemma budget_one_nonneg (e : event) : 0 <= budget [e].
Proof.
  unfold budget, progressed, gets. cbn [flat_map]. rewrite !app_nil_r.
  destruct e as [[[] []]|s]; cbn; try lia;
    destruct (Z.ltb_spec 0 z); cbn; lia.
Qed.

Lemma budget_nonneg (es : list event) : 0 <= budget es.
Proof.
  induction es as [|e es IH]; [unfold budget; cbn; lia|].
  rewrite budget_cons. pose proof (budget_one_nonneg e). lia.
Qed.

Ltac ltb_facts :=
  repeat match goal with
    | H : (_ <? _) = true |- _ => apply Z.ltb_lt in H
    | H : (_ <? _) = false |- _ => apply Z.ltb_ge in H
    end.

Ltac exact_words :=
  unfold Int64.add, Int64.sub;
  rewrite ?Int64Facts.wrap_id by (Int64Facts.unfold_consts; lia).

Lemma step_bounded (a : actor) (e : event) (o : outcome) (K : Z) :
  step a e = Ok o -> put_nonneg e -> bounded a K ->
  K + budget [e] <= Int64.max_int ->
  bounded (state_of o) (K + budget [e]).
Proof.
  intros Hstep Hput [[Ht0 HtK] [Hc0 HcK]] HK.
  destruct e as [m|s]; cbn [step] in Hstep.
  - revert HK. unfold bounded, budget, progressed, gets. cbn [flat_map].
    rewrite !app_nil_r.
    handle_cases Hstep; crunch Hstep; cbn in *; intros HK; ltb_facts;
      exact_words; Int64Facts.unfold_consts; lia.
  - inversion Hstep. cbn [state_of]. unfold bounded.
    destruct (Callback_frame a s) as [_ [_ [Ht Hb]]]. rewrite Ht, Hb.
    pose proof (budget_one_nonneg (Tick s)). lia.
Qed.

Lemma run_bounded (es : list event) :
  forall a o K, run a es = Ok o -> Forall put_nonneg es -> bounded a K ->
  K + budget (handled es) <= Int64.max_int ->
  bounded (state_of o) (K + budget (handled es)).
Proof.
  induction es as [|e es IH]; intros a o K Hrun Hput Hb HK;
    cbn [run handled] in *.
  - inversion Hrun. subst. unfold budget in *. cbn in *.
    destruct Hb as [[? ?] [? ?]]. unfold bounded. cbn. lia.
  - inversion Hput as [|? ? Hpe Hpes]; subst.
    destruct (step a e) as [o1|] eqn:Ho1; cbn [bind] in Hrun; [|discriminate].
    destruct (step_outcome _ _ _ Ho1) as [[Hf [a' ->]]|[Hf [a' ->]]];
      rewrite Hf in *.
    + inversion Hrun. subst. apply (step_bounded a e _ K Ho1 Hpe Hb HK).
    + rewrite budget_cons in *.
      pose proof (budget_nonneg (handled es)) as Hn.
      assert (HK1 : K + budget [e] <= Int64.max_int) by lia.
      pose proof (step_bounded a e _ K Ho1 Hpe Hb HK1) as Hb1.
      cbn [state_of] in Hb1.
      replace (K + (budget [e] + budget (handled es)))
        with (K + budget [e] + budget (handled es)) by lia.
      apply (IH a' o _ Hrun Hpes Hb1). lia.
Qed.

End Bounds.

(** X12: as long as the bytes added to the bar fit in an int64 and every
    [ErrorPut] has a size of at least zero, no counter wraps around and the
    position is never below zero: after a run from [newCpBar] the count of
    bytes read is the exact sum of the positive progress arguments handled,
    and the position lies between zero and that sum plus the positive
    [ErrorGet] sizes handled. *)
Theorem position_never_negative (width : Z) (es : list event) (o : outcome) :
  run (newCpBar width) es = Ok o ->
  Forall put_nonneg es ->
  budget (handled es) <= Int64.max_int ->
  totalBytesRead (state_of o) = zsum (progressed (handled es))
  /\ 0 <= pb.current (bar (state_of o)) <= budget (handled es).
Proof.
  intros Hrun Hput HK.
  assert (Hb0 : bounded (newCpBar width) 0) by (unfold bounded; cbn; lia).
  pose proof (run_bounded es (newCpBar width) o 0 Hrun Hput Hb0 HK)
    as [[Ht0 HtK] Hc].
  split; [|exact Hc].
  rewrite (run_totalBytesRead _ _ _ Hrun) in *. cbn [newCpBar totalBytesRead] in *.
  rewrite Int64Facts.sum_from_in_range in * by (Int64Facts.unfold_consts; lia).
  cbn [Z.add] in *. apply Int64Facts.wrap_id.
  assert (Hg : 0 <= zsum (gets (handled es))).
  { clear. induction (handled es) as [|e l IH]; [cbn; lia|].
    unfold gets in *. cbn [flat_map]. rewrite zsum_app.
    destruct e as [[[] []]|s]; cbn; try lia.
    destruct (Z.ltb_spec 0 z); cbn; lia. }
  assert (Hp : 0 <= zsum (progressed (handled es))).
  { clear. induction (handled es) as [|e l IH]; [cbn; lia|].
    unfold progressed in *. cbn [flat_map]. rewrite zsum_app.
    destruct e as [[[] []]|s]; cbn; try lia.
    destruct (Z.ltb_spec 0 z); cbn; lia. }
  unfold budget in HK. revert HK Hg Hp. Int64Facts.unfold_consts. lia.
Qed.

Lemma position_never_negative_witness :
  exists o,
    run (newCpBar 80)
        [recv (barSend.progress 10); recv (barSend.ErrorGet 5);
         recv (barSend.ErrorPut 3); recv (barSend.ErrorPut 12)] = Ok o
    /\ 0 <= pb.current (bar (state_of o)) <= 15.
Proof.
  destruct (run _ _) as [o|] eqn:Hrun; [|vm_compute in Hrun; discriminate Hrun].
  exists o. split; [reflexivity|].
  destruct (position_never_negative 80 _ o Hrun) as [_ H].
  - repeat (apply Forall_cons; [cbn; try exact I; lia|]). apply Forall_nil.
  - vm_compute. discriminate.
  - exact H.
Defined.

(** ** Closing the channel *)

Section Closing.








Lemma exec_cons (s s1 s2 : system) (l : label) (tr : list label) :
  sysStep s l s1 -> exec s1 tr s2 -> exec s (l :: tr) s2.
Proof.
  intros Hstep Hexec. induction Hexec as [s1|s1 tr s2 l' s3 Hexec IH Hstep'].
  - apply (exec_snoc s [] s l s1); [apply exec_nil|exact Hstep].
  - apply (exec_snoc s (l :: tr) s2 l' s3); [apply IH; exact Hstep|exact Hstep'].
Qed.

Lemma exec_app (s s1 s2 : system) (tr1 tr2 : list label) :
  exec s tr1 s1 -> exec s1 tr2 s2 -> exec s (tr1 ++ tr2) s2.
Proof.
  intros H1 H2. induction H2 as [s1|s1 tr2 s2 l s3 H2 IH Hstep].
  - rewrite app_nil_r. exact H1.
  - rewrite app_assoc. apply (exec_snoc s (tr1 ++ tr2) s2 l s3);
      [apply IH; exact H1|exact Hstep].
Qed.

(** The calls of one goroutine, none of them [Finish], are handled one
    after the other and leave the loop where [run] leaves it. *)
Lemma calls_exec (cs : list barSend.call) :
  forall a a1 rest,
  Forall (fun c => c <> barSend.Finish) cs ->
  run a (map recv cs) = Ok (Continue a1) ->
  exec (mkSystem (Looping a) false [barSend.program cs ++ rest])
       (map (fun c => Handled (barSend.msg c)) cs)
       (mkSystem (Looping a1) false [rest]).
Proof.
  induction cs as [|c cs IH]; intros a a1 rest Hnf Hrun;
    cbn [map run] in *.
  - inversion Hrun. apply exec_nil.
  - inversion Hnf as [|? ? Hc Hcs]; subst.
    unfold recv at 1 in Hrun. cbn [step] in Hrun.
    destruct (handle a (barSend.msg c)) as [o1|] eqn:Ho1; cbn [bind] in Hrun;
      [|discriminate].
    destruct o1 as [a'|a']; [|discriminate].
    apply (exec_cons _ (mkSystem (Looping a') false [barSend.program cs ++ rest])).
    + assert (Hops : barSend.program (c :: cs) ++ rest
                     = Send (barSend.msg c) :: (barSend.program cs ++ rest)).
      { unfold barSend.program. cbn [flat_map].
        destruct c; try reflexivity. contradiction. }
      rewrite Hops.
      exact (step_send a (barSend.msg c) (Continue a') []
               (barSend.program cs ++ rest) [] Ho1).
    + apply IH; assumption.
Qed.

End Closing.



(** X14: a goroutine that makes calls other than [Finish], with captions
    that trim without a panic, and then calls [Finish] can run to the end
    with nothing else going on: every message is handled in the order of the
    calls, then the signal is given and the channel closed, all goroutines
    are done, and the loop ends with the variables [run] computes. *)
Theorem coordinator_completes (a : actor) (cs : list barSend.call) :
  Forall (fun c => c <> barSend.Finish) cs ->
  Forall (sent (pb.Width (bar a))) (map recv cs) ->
  exists a',
    run a (map recv (cs ++ [barSend.Finish])) = Ok (Finishing a')
    /\ exec (boot a [cs ++ [barSend.Finish]])
            (map (fun c => Handled (barSend.msg c)) (cs ++ [barSend.Finish])
             ++ [Signalled; Closed])
            (mkSystem (Exited a') true [[]]).
Proof.
  intros Hnf Hsent.
  destruct (run_sent _ a Hsent) as [o Hrun].
  assert (Hcont : exists a1, o = Continue a1).
  { destruct o as [a1|a1]; [exists a1; reflexivity|].
    assert (Hex : existsb is_finish (map recv cs) = true)
      by (apply (run_finishing_iff _ a _ Hrun); exists a1; reflexivity).
    apply existsb_exists in Hex. destruct Hex as [e [Hin He]].
    apply in_map_iff in Hin. destruct Hin as [c [<- Hin]].
    pose proof (proj1 (Forall_forall _ _) Hnf c Hin) as Hc.
    destruct c; try discriminate He. contradiction. }
  destruct Hcont as [a1 ->].
  exists (finished a1). split.
  - rewrite map_app. rewrite (run_app _ _ _ _ Hrun). reflexivity.
  - unfold boot. cbn [map]. unfold barSend.program at 1.
    rewrite flat_map_app. fold (barSend.program cs).
    rewrite map_app, <- app_assoc.
    apply (exec_app _ (mkSystem (Looping a1) false
                         [flat_map barSend.ops [barSend.Finish]])).
    + apply calls_exec; assumption.
    + exact (shutdown_run a1).
Qed.

Lemma coordinator_completes_witness :
  exists a',
    run (newCpBar 80)
        (map recv [barSend.Extend 9; barSend.progress 4; barSend.Finish])
    = Ok (Finishing a')
    /\ exec (boot (newCpBar 80)
                  [[barSend.Extend 9; barSend.progress 4; barSend.Finish]])
            [Handled (barSend.msg (barSend.Extend 9));
             Handled (barSend.msg (barSend.progress 4));
             Handled (barSend.msg barSend.Finish); Signalled; Closed]
            (mkSystem (Exited a') true [[]]).
Proof.
  destruct (coordinator_completes (newCpBar 80)
              [barSend.Extend 9; barSend.progress 4]) as [a' [Hrun Hexec]].
  - repeat (apply Forall_cons; [discriminate|]). apply Forall_nil.
  - sent_events.
  - exists a'. split; [exact Hrun|exact Hexec].
Defined.

(** ** The pending redraw *)




